(** * gssapi_ext.h: the GGF extensions of the GSS-API binding

    The header [src/java.security.jgss/share/native/libj2gss/gssapi_ext.h]
    declares one structure ([gss_buffer_set_desc]), one macro
    ([GSS_C_NO_BUFFER_SET]) and two prototypes ([gss_release_buffer_set],
    [gss_inquire_sec_context_by_oid]), wrapped in preprocessor conditionals.

    What the header "executes" is the translation of its lines by the C
    preprocessor and compiler: every line is embedded below as a transformer
    of the state of the translation unit (macro table, packing stack, linkage
    nesting, declared types and functions), and [gssapi_ext_h] is the header
    read top to bottom.  Values of the declared types are embedded as a Rocq
    record and pointers into a small typed memory. *)

From Stdlib Require Import ZArith NArith List Lia.
From stdpp Require Import base option list gmap strings.

Open Scope string_scope.

(** ** C types as the header spells them *)

Inductive ctype : Type :=
  | TNamed (name : string)      (* a typedef name: size_t, OM_uint32, ... *)
  | TStruct (tag : string)      (* struct tag *)
  | TPtr (t : ctype)            (* t *  *)
  | TConst (t : ctype).         (* const t *)

#[global] Instance ctype_eq_dec : EqDecision ctype.
Proof. solve_decision. Defined.

(** ** Macros *)

(** The replacement list of an object-like macro, as far as this header
    and its conditionals look at it. *)
Inductive macro_body : Type :=
  | MEmpty                          (* #define X *)
  | MInt (z : Z)                    (* #define X 1 *)
  | MCast (t : ctype) (z : Z)       (* #define X ((t) z) *)
  | MTokens (s : string).           (* anything else, e.g. __declspec(dllimport) *)

#[global] Instance macro_body_eq_dec : EqDecision macro_body.
Proof. solve_decision. Defined.

(** ** Results of translation: a state or a diagnostic that stops it *)

Inductive result (A : Type) : Type :=
  | Ok (a : A)
  | Err (msg : string).
Arguments Ok {A} a.
Arguments Err {A} msg.

Definition is_ok {A} (r : result A) : bool :=
  match r with Ok _ => true | Err _ => false end.

(** ** Declarations recorded in a translation unit *)

Inductive linkage : Type := LinkC | LinkCxx.

#[global] Instance linkage_eq_dec : EqDecision linkage.
Proof. solve_decision. Defined.

(** A structure definition, with the [#pragma pack] value in force where it
    was defined ([None]: no packing, members keep their natural alignment). *)
Record struct_decl : Type := {
  sd_fields : list (string * ctype);
  sd_pack : option N
}.

(** A function prototype.  [fd_import] is what [GSS_DLLIMP] expanded to;
    parameter names are the ones the header gives in comments. *)
Record fun_decl : Type := {
  fd_import : macro_body;
  fd_ret : ctype;
  fd_params : list (ctype * string);
  fd_linkage : linkage
}.

(** ** State of the translation unit *)

Record tu : Type := {
  tu_macros : gmap string macro_body;     (* defined macros *)
  tu_typedefs : gmap string ctype;        (* typedef names in scope *)
  tu_structs : gmap string struct_decl;   (* completed struct definitions *)
  tu_protos : gmap string fun_decl;       (* declared functions *)
  tu_defined : gset string;               (* functions that have a body *)
  tu_pack : option N;                     (* current packing alignment *)
  tu_pack_stack : list (option N);        (* saved by pack(push) *)
  tu_extern_c : nat                       (* open extern "C" blocks *)
}.

Definition with_macros (f : gmap string macro_body → gmap string macro_body)
    (st : tu) : tu :=
  {| tu_macros := f (tu_macros st); tu_typedefs := tu_typedefs st;
     tu_structs := tu_structs st; tu_protos := tu_protos st;
     tu_defined := tu_defined st; tu_pack := tu_pack st;
     tu_pack_stack := tu_pack_stack st; tu_extern_c := tu_extern_c st |}.

Definition with_typedef (name : string) (t : ctype) (st : tu) : tu :=
  {| tu_macros := tu_macros st; tu_typedefs := <[name := t]> (tu_typedefs st);
     tu_structs := tu_structs st; tu_protos := tu_protos st;
     tu_defined := tu_defined st; tu_pack := tu_pack st;
     tu_pack_stack := tu_pack_stack st; tu_extern_c := tu_extern_c st |}.

Definition with_struct (tag : string) (d : struct_decl) (st : tu) : tu :=
  {| tu_macros := tu_macros st; tu_typedefs := tu_typedefs st;
     tu_structs := <[tag := d]> (tu_structs st); tu_protos := tu_protos st;
     tu_defined := tu_defined st; tu_pack := tu_pack st;
     tu_pack_stack := tu_pack_stack st; tu_extern_c := tu_extern_c st |}.

Definition with_proto (name : string) (d : fun_decl) (st : tu) : tu :=
  {| tu_macros := tu_macros st; tu_typedefs := tu_typedefs st;
     tu_structs := tu_structs st; tu_protos := <[name := d]> (tu_protos st);
     tu_defined := tu_defined st; tu_pack := tu_pack st;
     tu_pack_stack := tu_pack_stack st; tu_extern_c := tu_extern_c st |}.

Definition with_pack (p : option N) (stack : list (option N)) (st : tu) : tu :=
  {| tu_macros := tu_macros st; tu_typedefs := tu_typedefs st;
     tu_structs := tu_structs st; tu_protos := tu_protos st;
     tu_defined := tu_defined st; tu_pack := p;
     tu_pack_stack := stack; tu_extern_c := tu_extern_c st |}.

Definition with_extern_c (n : nat) (st : tu) : tu :=
  {| tu_macros := tu_macros st; tu_typedefs := tu_typedefs st;
     tu_structs := tu_structs st; tu_protos := tu_protos st;
     tu_defined := tu_defined st; tu_pack := tu_pack st;
     tu_pack_stack := tu_pack_stack st; tu_extern_c := n |}.

(** ** Lines of a header as state transformers *)

Definition directive : Type := tu → result tu.

Definition seq_directive (d1 d2 : directive) : directive :=
  fun st => match d1 st with Ok st1 => d2 st1 | Err msg => Err msg end.

Declare Scope directive_scope.
Delimit Scope directive_scope with directive.
Bind Scope directive_scope with directive.
Notation "d1 ;; d2" := (seq_directive d1 d2)
  (at level 100, d2 at level 200, right associativity) : directive_scope.

(** *** Controlling expressions of [#if] *)

(** A controlling expression evaluates over the macro table to an integer,
    or to nothing when it is not an integer constant expression after macro
    replacement (the compiler then rejects the line). *)
Definition pp_expr : Type := gmap string macro_body → option Z.

(** Whether a name is currently a macro. *)
Definition macro_defined (ms : gmap string macro_body) (name : string) : bool :=
  match ms !! name with Some _ => true | None => false end.

(** [defined(X)] *)
Definition pp_defined (name : string) : pp_expr :=
  fun ms => Some (if macro_defined ms name then 1 else 0)%Z.

(** An identifier: its integer replacement, 0 when it is not a macro. *)
Definition pp_ident (name : string) : pp_expr :=
  fun ms => match ms !! name with
            | None => Some 0%Z
            | Some (MInt z) => Some z
            | Some _ => None
            end.

Definition pp_and (a b : pp_expr) : pp_expr :=
  fun ms => x ← a ms; y ← b ms;
            Some (if bool_decide (x ≠ 0 ∧ y ≠ 0)%Z then 1 else 0)%Z.

Definition pp_or (a b : pp_expr) : pp_expr :=
  fun ms => x ← a ms; y ← b ms;
            Some (if bool_decide (x ≠ 0 ∨ y ≠ 0)%Z then 1 else 0)%Z.

Infix "&&&" := pp_and (at level 40, left associativity).
Infix "|||" := pp_or (at level 50, left associativity).

(** *** Preprocessor directives *)

(** [#if e] ... [#endif] *)
Definition pp_if (e : pp_expr) (body : directive) : directive :=
  fun st => match e (tu_macros st) with
            | None => Err "#if: not an integer constant expression"
            | Some z => if bool_decide (z ≠ 0%Z) then body st else Ok st
            end.

(** [#ifdef X] ... [#endif] *)
Definition pp_ifdef (name : string) (body : directive) : directive :=
  fun st => if macro_defined (tu_macros st) name then body st else Ok st.

(** [#ifndef X] ... [#endif] *)
Definition pp_ifndef (name : string) (body : directive) : directive :=
  fun st => if macro_defined (tu_macros st) name then Ok st else body st.

(** [#define X body] *)
Definition pp_define (name : string) (body : macro_body) : directive :=
  fun st => Ok (with_macros (insert name body) st).

(** [#error "msg"] *)
Definition pp_error (msg : string) : directive := fun _ => Err msg.

(** [#include] of a system header that only defines macros. *)
Definition pp_include (hdr : gmap string macro_body → gmap string macro_body)
    : directive :=
  fun st => Ok (with_macros hdr st).

(** [#pragma pack(push, n)]: save the current alignment, then set it to [n]. *)
Definition pragma_pack_push (n : N) : directive :=
  fun st => Ok (with_pack (Some n) (tu_pack st :: tu_pack_stack st) st).

(** [#pragma pack(pop)]: restore the alignment saved last; with nothing
    saved the compiler warns and changes nothing. *)
Definition pragma_pack_pop : directive :=
  fun st => match tu_pack_stack st with
            | [] => Ok st
            | p :: stack => Ok (with_pack p stack st)
            end.

(** [extern "C" {] and its closing brace *)
Definition extern_C_open : directive :=
  fun st => Ok (with_extern_c (S (tu_extern_c st)) st).

Definition extern_C_close : directive :=
  fun st => match tu_extern_c st with
            | O => Err "extraneous closing brace"
            | S n => Ok (with_extern_c n st)
            end.

(** *** Declarations *)

(** A type name must be in scope where a declaration uses it. *)
Fixpoint type_in_scope (st : tu) (t : ctype) : bool :=
  match t with
  | TNamed name => bool_decide (is_Some (tu_typedefs st !! name))
  | TStruct _ => true        (* a pointer to an incomplete struct is fine *)
  | TPtr t' | TConst t' => type_in_scope st t'
  end.

(** [typedef struct tag { fields } name, *pname;] *)
Definition typedef_struct (tag : string) (fields : list (string * ctype))
    (name pname : string) : directive :=
  fun st =>
    if negb (forallb (fun f => type_in_scope st f.2) fields)
    then Err "unknown type name"
    else match tu_structs st !! tag with
    | Some _ => Err "redefinition of struct"
    | None => Ok (with_typedef pname (TPtr (TStruct tag))
              (with_typedef name (TStruct tag)
                (with_struct tag
                   {| sd_fields := fields; sd_pack := tu_pack st |} st)))
    end.

(** The language linkage a declaration gets: C++ only when compiling C++
    outside every [extern "C"] block. *)
Definition current_linkage (st : tu) : linkage :=
  match tu_extern_c st with
  | O => if macro_defined (tu_macros st) "__cplusplus" then LinkCxx else LinkC
  | S _ => LinkC
  end.

(** [GSS_DLLIMP ret name(params);] : a prototype, no body. *)
Definition declare_function (name : string) (ret : ctype)
    (params : list (ctype * string)) : directive :=
  fun st =>
    match tu_macros st !! "GSS_DLLIMP" with
    | None => Err "unknown type name GSS_DLLIMP"
    | Some imp =>
        if negb (type_in_scope st ret
                 && forallb (fun p => type_in_scope st p.1) params)
        then Err "unknown type name"
        else Ok (with_proto name
                   {| fd_import := imp; fd_ret := ret; fd_params := params;
                      fd_linkage := current_linkage st |} st)
    end.

(** ** The header *)

Section Header.

(** [<TargetConditionals.h>] is a system header of the macOS SDK; it defines
    the [TARGET_*] macros.  It is not part of the repository and enters as a
    parameter. *)
Variable TargetConditionals_h : gmap string macro_body → gmap string macro_body.

(** The condition both packing pragmas stand under. *)
Definition pack_condition : pp_expr :=
  pp_ident "TARGET_OS_MAC" &&&
  (pp_defined "__ppc__" ||| pp_defined "__ppc64__" |||
   pp_defined "__i386__" ||| pp_defined "__x86_64__").

Definition gss_buffer_set_desc_fields : list (string * ctype) :=
  [ ("count", TNamed "size_t");
    ("elements", TPtr (TNamed "gss_buffer_desc")) ].

Definition gss_release_buffer_set_params : list (ctype * string) :=
  [ (TPtr (TNamed "OM_uint32"), "minor_status");
    (TPtr (TNamed "gss_buffer_set_t"), "buffer_set") ].

Definition gss_inquire_sec_context_by_oid_params : list (ctype * string) :=
  [ (TPtr (TNamed "OM_uint32"), "minor_status");
    (TConst (TNamed "gss_ctx_id_t"), "context_handle");
    (TConst (TNamed "gss_OID"), "desired_object");
    (TPtr (TNamed "gss_buffer_set_t"), "data_set") ].

(** Lines 29-34: the Apple prelude. *)
Definition apple_prelude : directive :=
  pp_if (pp_defined "__MACH__" &&& pp_defined "__APPLE__")
    (pp_include TargetConditionals_h ;;
     pp_if (pp_ident "TARGET_RT_MAC_CFM")
       (pp_error "Use KfM 4.0 SDK headers for CFM compilation.")).

(** Lines 46-63: the declarations proper. *)
Definition ggf_extensions : directive :=
  (typedef_struct "gss_buffer_set_desc_struct" gss_buffer_set_desc_fields
     "gss_buffer_set_desc" "gss_buffer_set_t" ;;
   pp_define "GSS_C_NO_BUFFER_SET" (MCast (TNamed "gss_buffer_set_t") 0) ;;
   declare_function "gss_release_buffer_set" (TNamed "OM_uint32")
     gss_release_buffer_set_params ;;
   declare_function "gss_inquire_sec_context_by_oid" (TNamed "OM_uint32")
     gss_inquire_sec_context_by_oid_params)%directive.

(** Lines 26-72: the whole file, under its include guard. *)
Definition gssapi_ext_h : directive :=
  pp_ifndef "_GSSAPI_EXT_H_"
    (pp_define "_GSSAPI_EXT_H_" MEmpty ;;
     apple_prelude ;;
     pp_ifdef "__cplusplus" extern_C_open ;;
     pp_if pack_condition (pragma_pack_push 2) ;;
     ggf_extensions ;;
     pp_if pack_condition pragma_pack_pop ;;
     pp_ifdef "__cplusplus" extern_C_close).

End Header.

(** The macro table the declarations are read under: the table at the point
    of inclusion with the guard defined and, on Apple targets, the system
    header's macros added. *)
Definition prelude_macros
    (TargetConditionals_h : gmap string macro_body → gmap string macro_body)
    (ms : gmap string macro_body) : gmap string macro_body :=
  let ms1 := <["_GSSAPI_EXT_H_" := MEmpty]> ms in
  if macro_defined ms1 "__MACH__" && macro_defined ms1 "__APPLE__"
  then TargetConditionals_h ms1 else ms1.

(** A parameter a callee can write through: a pointer to a non-const type. *)
Definition is_output_param (t : ctype) : bool :=
  match t with
  | TPtr (TConst _) => false
  | TPtr _ => true
  | _ => false
  end.

(** ** Structure layout under [#pragma pack] *)

Section Layout.

(** Size and natural alignment of the member types on the target; they come
    from the platform, not from this header. *)
Variables sizeof alignof : ctype → N.

(** Under [pack(n)] a member is aligned to the smaller of [n] and its natural
    alignment. *)
Definition member_align (pack : option N) (t : ctype) : N :=
  match pack with
  | None => alignof t
  | Some n => N.min n (alignof t)
  end.

Definition align_up (off a : N) : N := ((off + a - 1) / a * a)%N.

(** Offsets of the members in declaration order, and the offset after the
    last one. *)
Fixpoint member_offsets (pack : option N) (off : N)
    (fields : list (string * ctype)) : list (string * N) * N :=
  match fields with
  | [] => ([], off)
  | (name, t) :: rest =>
      let o := align_up off (member_align pack t) in
      let '(offs, fin) := member_offsets pack (o + sizeof t) rest in
      ((name, o) :: offs, fin)
  end.

(** The alignment of a structure is the largest alignment of its members. *)
Definition struct_align (d : struct_decl) : N :=
  foldr N.max 1%N (map (fun f => member_align (sd_pack d) f.2) (sd_fields d)).

Definition struct_offsets (d : struct_decl) : list (string * N) :=
  (member_offsets (sd_pack d) 0 (sd_fields d)).1.

Definition struct_size (d : struct_decl) : N :=
  align_up (member_offsets (sd_pack d) 0 (sd_fields d)).2 (struct_align d).

End Layout.

(** ** Values of the declared types *)

(** Object pointers are addresses; address 0 is the null pointer.  Pointer
    arithmetic on a [gss_buffer_desc *] counts in elements. *)
Abbreviation pointer := Z (only parsing).

Definition NULL : pointer := 0%Z.

(** [(T) z] for a pointer type [T]. *)
Definition cast_to_pointer (z : Z) : pointer := z.

(** [typedef struct gss_buffer_set_desc_struct { size_t count;
    gss_buffer_desc *elements; } gss_buffer_set_desc, *gss_buffer_set_t;] *)
Record gss_buffer_set_desc : Type := {
  count : N;               (* size_t *)
  elements : pointer       (* gss_buffer_desc * *)
}.

Abbreviation gss_buffer_set_t := Z (only parsing).

(** [#define GSS_C_NO_BUFFER_SET ((gss_buffer_set_t) 0)] *)
Definition GSS_C_NO_BUFFER_SET : gss_buffer_set_t := cast_to_pointer 0.

(** The pointer a macro body denotes, when it is a cast of an integer. *)
Definition macro_pointer_value (b : macro_body) : option Z :=
  match b with
  | MCast _ z => Some (cast_to_pointer z)
  | _ => None
  end.

(** [OM_uint32] is declared in gssapi.h: an unsigned status word. *)
Abbreviation OM_uint32 := N (only parsing).

Section Memory.

(** [gss_buffer_desc] is declared in gssapi.h, outside this header; the
    descriptors are opaque here. *)
Context {gss_buffer_desc : Type}.

(** Typed memory: the buffer-set structures and the buffer descriptors that
    are allocated, by address. *)
Record memory : Type := {
  mem_sets : gmap Z gss_buffer_set_desc;
  mem_bufs : gmap Z gss_buffer_desc
}.

(** [*p] for [p : gss_buffer_set_t] *)
Definition load_set (m : memory) (p : gss_buffer_set_t)
    : option gss_buffer_set_desc :=
  if bool_decide (p = NULL) then None else mem_sets m !! p.

(** [*p] for [p : gss_buffer_desc *] *)
Definition load_buf (m : memory) (p : pointer) : option gss_buffer_desc :=
  if bool_decide (p = NULL) then None else mem_bufs m !! p.

(** [p[0], ..., p[n-1]] *)
Fixpoint read_buffers (m : memory) (p : pointer) (n : nat)
    : option (list gss_buffer_desc) :=
  match n with
  | O => Some []
  | S k =>
      b ← load_buf m p;
      bs ← read_buffers m (p + 1)%Z k;
      Some (b :: bs)
  end.

(** The sequence a buffer set holds: [elements[0 .. count-1]]. *)
Definition buffer_set_elements (m : memory) (s : gss_buffer_set_desc)
    : option (list gss_buffer_desc) :=
  read_buffers m (elements s) (N.to_nat (count s)).

(** A buffer set is well formed in a memory when all of its [count]
    elements are there to be read. *)
Definition well_formed (m : memory) (s : gss_buffer_set_desc) : Prop :=
  is_Some (buffer_set_elements m s).

(** The buffers reachable through a handle. *)
Definition handle_elements (m : memory) (p : gss_buffer_set_t)
    : option (list gss_buffer_desc) :=
  s ← load_set m p; buffer_set_elements m s.

End Memory.

Arguments memory : clear implicits.

(** ** The external provider

    The header gives the two entry points a prototype and no body; the
    functions live in the platform's GSS-API library.  The definitions of
    this module follow the specification's description of them (data model
    and component design), with everything the provider decides left as a
    parameter. *)

Module Provider.
Section Provider.

Context {gss_buffer_desc gss_ctx_id_t gss_OID : Type}.

(** The provider's status convention: which major status words report a
    failure. *)
Variable GSS_ERROR : OM_uint32 → bool.

(** What the provider answers to an inquiry: major status, minor status and
    the values of the property. *)
Variable provider_inquire :
  gss_ctx_id_t → gss_OID → OM_uint32 * OM_uint32 * list gss_buffer_desc.

(** The status the provider gives to a release request. *)
Variable provider_release : gss_buffer_set_t → OM_uint32 * OM_uint32.

(** Modelled from the spec: the provider's heap, which is not in the
    repository: the memory and the next unused address (addresses are handed
    out once). *)
Record world : Type := {
  w_mem : memory gss_buffer_desc;
  w_next : Z
}.

Definition initial_world : world :=
  {| w_mem := {| mem_sets := ∅; mem_bufs := ∅ |}; w_next := 1 |}.

(** Modelled from the spec: what a call hands back ("returns a numeric
    status and writes a finer-grained minor status through an output
    parameter"): the status word it returns and the minor status it stores
    through its first parameter. *)
Record status : Type := {
  major_status : OM_uint32;
  minor_status : OM_uint32
}.

(** Modelled from the spec: the provider populating the element array of a
    new set, [p[0], p[1], ...]. *)
Fixpoint store_buffers (bufs : gmap Z gss_buffer_desc) (p : pointer)
    (l : list gss_buffer_desc) : gmap Z gss_buffer_desc :=
  match l with
  | [] => bufs
  | b :: rest => <[p := b]> (store_buffers bufs (p + 1)%Z rest)
  end.

(** Modelled from the spec: the provider freeing the [n] elements of a set. *)
Fixpoint free_buffers (bufs : gmap Z gss_buffer_desc) (p : pointer)
    (n : nat) : gmap Z gss_buffer_desc :=
  match n with
  | O => bufs
  | S k => delete p (free_buffers bufs (p + 1)%Z k)
  end.

(** Modelled from the spec: the allocation the provider performs for a query
    ("allocated and populated by the external security library in response
    to a query"); the allocator is not in the repository.  A new structure
    and its element array are placed at unused addresses. *)
Definition alloc_buffer_set (vals : list gss_buffer_desc) (w : world)
    : gss_buffer_set_t * world :=
  let p := w_next w in
  let arr := (p + 1)%Z in
  let s := {| count := N.of_nat (length vals);
              elements := match vals with [] => NULL | _ => arr end |} in
  (p, {| w_mem := {| mem_sets := <[p := s]> (mem_sets (w_mem w));
                     mem_bufs := store_buffers (mem_bufs (w_mem w)) arr vals |};
         w_next := (arr + Z.of_nat (length vals))%Z |}).

(** Modelled from the spec: the body of [gss_inquire_sec_context_by_oid],
    which the header only declares ("given an established security context
    and an identifier of a desired property, returns a buffer set describing
    that property's value(s), signaling failure via a numeric status code").
    [data_set] is the value [*data_set] holds before the call; the third
    component of the result is the value it holds after. *)
Definition gss_inquire_sec_context_by_oid (context_handle : gss_ctx_id_t)
    (desired_object : gss_OID) (data_set : gss_buffer_set_t) (w : world)
    : status * gss_buffer_set_t * world :=
  let '(major, minor, vals) := provider_inquire context_handle desired_object in
  let st := {| major_status := major; minor_status := minor |} in
  if GSS_ERROR major then (st, data_set, w)
  else let '(p, w') := alloc_buffer_set vals w in (st, p, w').

(** Modelled from the spec: the deallocation behind [gss_release_buffer_set]
    ("the caller never directly allocates or frees the individual elements,
    only the whole set"): the structure and all of its elements go. *)
Definition free_buffer_set (p : gss_buffer_set_t) (w : world) : world :=
  match load_set (w_mem w) p with
  | None => w
  | Some s =>
      {| w_mem := {| mem_sets := delete p (mem_sets (w_mem w));
                     mem_bufs := free_buffers (mem_bufs (w_mem w))
                                   (elements s) (N.to_nat (count s)) |};
         w_next := w_next w |}
  end.

(** Modelled from the spec: the body of [gss_release_buffer_set], which the
    header only declares ("a release operation that deallocates a previously
    returned buffer set and signals failure via the same numeric status
    convention"). *)
Definition gss_release_buffer_set (buffer_set : gss_buffer_set_t) (w : world)
    : status * world :=
  let '(major, minor) := provider_release buffer_set in
  let st := {| major_status := major; minor_status := minor |} in
  if GSS_ERROR major then (st, w) else (st, free_buffer_set buffer_set w).

(** *** Lifecycle of a buffer set *)






(** Modelled from the spec: the allocator's bookkeeping: every allocated
    address lies strictly between null and [w_next]. *)
Definition world_ok (w : world) : Prop :=
  (0 < w_next w)%Z ∧
  (∀ a, is_Some (mem_sets (w_mem w) !! a) → 0 < a < w_next w)%Z ∧
  (∀ a, is_Some (mem_bufs (w_mem w) !! a) → 0 < a < w_next w)%Z.

(** Modelled from the spec: the calling convention of the release entry
    point ("every declared operation returns a numeric status and writes a
    finer-grained minor status through an output parameter"); the body is
    not in the repository.  [minor_status_ptr] is the address of the caller's
    status word [OM_uint32 *minor_status] and [words] the caller's status
    words: the call stores the minor status there and returns the major
    status. *)
Definition call_gss_release_buffer_set (minor_status_ptr : pointer)
    (buffer_set : gss_buffer_set_t) (words : gmap Z N) (w : world)
    : OM_uint32 * gmap Z N * world :=
  let '(st, w') := gss_release_buffer_set buffer_set w in
  (major_status st, <[minor_status_ptr := minor_status st]> words, w').

(** Modelled from the spec: the calling convention of the query entry point,
    in the same way; the fourth component of the result is the value of
    [*data_set] after the call. *)
Definition call_gss_inquire_sec_context_by_oid (minor_status_ptr : pointer)
    (context_handle : gss_ctx_id_t) (desired_object : gss_OID)
    (data_set : gss_buffer_set_t) (words : gmap Z N) (w : world)
    : OM_uint32 * gmap Z N * gss_buffer_set_t * world :=
  let '(st, p, w') :=
    gss_inquire_sec_context_by_oid context_handle desired_object data_set w in
  (major_status st, <[minor_status_ptr := minor_status st]> words, p, w').






End Provider.
End Provider.

(** ** Sample translation units

    A translation unit at the point where the header is included, after
    gssapi.h: macOS on x86_64, and Linux on x86_64. *)

Definition gssapi_h_typedefs : gmap string ctype :=
  list_to_map
    [ ("size_t", TNamed "unsigned long");
      ("OM_uint32", TNamed "uint32_t");
      ("gss_buffer_desc", TStruct "gss_buffer_desc_struct");
      ("gss_ctx_id_t", TPtr (TStruct "gss_ctx_id_struct"));
      ("gss_OID", TPtr (TStruct "gss_OID_desc_struct")) ].

Definition tu_after_gssapi_h (ms : gmap string macro_body) : tu :=
  {| tu_macros := <["GSS_DLLIMP" := MEmpty]> ms;
     tu_typedefs := gssapi_h_typedefs;
     tu_structs := ∅; tu_protos := ∅; tu_defined := ∅;
     tu_pack := None; tu_pack_stack := []; tu_extern_c := 0 |}.

Definition macos_x86_64 : tu :=
  tu_after_gssapi_h
    (list_to_map [ ("__MACH__", MInt 1); ("__APPLE__", MInt 1);
                   ("__x86_64__", MInt 1) ]).

Definition linux_x86_64 : tu :=
  tu_after_gssapi_h
    (list_to_map [ ("__linux__", MInt 1); ("__x86_64__", MInt 1) ]).

(** What the SDK's TargetConditionals.h defines on a current macOS. *)
Definition sdk_TargetConditionals (ms : gmap string macro_body)
    : gmap string macro_body :=
  <["TARGET_OS_MAC" := MInt 1]> (<["TARGET_RT_MAC_CFM" := MInt 0]> ms).

(** The state a directive leaves, or the given one when translation stops. *)
Definition state_after (d : directive) (st : tu) : tu :=
  match d st with Ok st' => st' | Err _ => st end.

(** LP64 sizes and alignments, as on x86_64 and ppc64. *)
Definition lp64_sizeof (t : ctype) : N := 8.
Definition lp64_alignof (t : ctype) : N := 8.

(** ** What the header declares, once translated *)

Definition buffer_set_struct (pack : option N) : struct_decl :=
  {| sd_fields := gss_buffer_set_desc_fields; sd_pack := pack |}.

Definition release_proto (imp : macro_body) : fun_decl :=
  {| fd_import := imp; fd_ret := TNamed "OM_uint32";
     fd_params := gss_release_buffer_set_params; fd_linkage := LinkC |}.

Definition inquire_proto (imp : macro_body) : fun_decl :=
  {| fd_import := imp; fd_ret := TNamed "OM_uint32";
     fd_params := gss_inquire_sec_context_by_oid_params;
     fd_linkage := LinkC |}.

(** The packing value the structure is defined under. *)
Definition pack_at_struct (z : Z) (outer : option N) : option N :=
  if bool_decide (z ≠ 0%Z) then Some 2%N else outer.

(** A memory holding one buffer set of two descriptors at address 16, with
    its elements at addresses 32 and 33, and an empty set at address 48. *)
Definition sample_memory : memory string :=
  {| mem_sets := <[16%Z := {| count := 2; elements := 32 |}]>
                   (<[48%Z := {| count := 0; elements := NULL |}]> ∅);
     mem_bufs := <[32%Z := "first"]> (<[33%Z := "second"]> ∅) |}.

(** A sample provider: status 0 is success and anything else a failure;
    property 0 of the one context has two values, no other property is
    known; every release request is accepted. *)
Definition sample_GSS_ERROR (major : N) : bool := negb (major =? 0)%N.

Definition sample_inquire (ctx : unit) (oid : nat) : N * N * list string :=
  match oid with
  | O => (0%N, 0%N, ["first"; "second"])
  | S _ => (851968%N, 22%N, [])
  end.

Definition sample_release (p : Z) : N * N := (0%N, 0%N).


(** The sample provider's heap after one successful query on the empty
    heap. *)
Definition world_after_query : Provider.world (gss_buffer_desc := string) :=
  (Provider.gss_inquire_sec_context_by_oid sample_GSS_ERROR sample_inquire
     tt 0%nat GSS_C_NO_BUFFER_SET
     (Provider.initial_world (gss_buffer_desc := string))).2.




(** The targets the packing pragmas are meant for: [TARGET_OS_MAC] is a
    non-zero integer and one of the four architecture macros is defined. *)
Definition packing_applies (ms : gmap string macro_body) : Prop :=
  (∃ v, ms !! "TARGET_OS_MAC" = Some (MInt v) ∧ v ≠ 0%Z) ∧
  (macro_defined ms "__ppc__" || macro_defined ms "__ppc64__" ||
   macro_defined ms "__i386__" || macro_defined ms "__x86_64__") = true.

(** * Properties *)

#[local] Arguments macro_defined : simpl never.
#[local] Arguments pp_ident : simpl never.
#[local] Arguments pp_defined : simpl never.

(** ** The header as a whole *)

Lemma pp_defined_insert_ne name k b ms :
  k ≠ name → pp_defined name (<[k := b]> ms) = pp_defined name ms.
Proof.
  intros Hne. unfold pp_defined, macro_defined.
  by rewrite lookup_insert_ne.
Qed.

Lemma pp_ident_insert_ne name k b ms :
  k ≠ name → pp_ident name (<[k := b]> ms) = pp_ident name ms.
Proof.
  intros Hne. unfold pp_ident. by rewrite lookup_insert_ne.
Qed.

(** Defining [GSS_C_NO_BUFFER_SET] does not change the packing condition. *)
Lemma pack_condition_stable b ms :
  pack_condition (<["GSS_C_NO_BUFFER_SET" := b]> ms) = pack_condition ms.
Proof.
  unfold pack_condition, pp_and, pp_or.
  rewrite pp_ident_insert_ne by done.
  by rewrite !pp_defined_insert_ne by done.
Qed.

Lemma pp_and_bool (a b : pp_expr) ms z :
  (a &&& b) ms = Some z → z = 0%Z ∨ z = 1%Z.
Proof.
  unfold pp_and. destruct (a ms), (b ms); simpl; try done.
  intros [= <-]. case_bool_decide; auto.
Qed.

(** The packing condition only yields 0 or 1. *)
Lemma pack_condition_bool ms z :
  pack_condition ms = Some z → z = 0%Z ∨ z = 1%Z.
Proof. apply pp_and_bool. Qed.

Lemma apple_prelude_spec TC st st' :
  apple_prelude TC st = Ok st' →
  st' = with_macros
          (fun ms => if macro_defined ms "__MACH__" && macro_defined ms "__APPLE__"
                     then TC ms else ms) st.
Proof.
  unfold apple_prelude, pp_if, pp_and, pp_defined, seq_directive, pp_include,
    pp_error, with_macros. simpl.
  destruct st as [ms tds ss ps ds pk stk ec]; simpl.
  destruct (macro_defined ms "__MACH__"), (macro_defined ms "__APPLE__");
    simpl; try (intros [= <-]; done).
  destruct (pp_ident "TARGET_RT_MAC_CFM" (TC ms)); [|done].
  case_bool_decide; [done|]. by intros [= <-].
Qed.

Lemma macro_defined_insert_ne name k b ms :
  k ≠ name → macro_defined (<[k := b]> ms) name = macro_defined ms name.
Proof. intros Hne. unfold macro_defined. by rewrite lookup_insert_ne. Qed.

Lemma ggf_extensions_spec st st' :
  ggf_extensions st = Ok st' →
  ∃ imp,
    tu_macros st !! "GSS_DLLIMP" = Some imp ∧
    tu_structs st !! "gss_buffer_set_desc_struct" = None ∧
    st' =
      {| tu_macros :=
           <["GSS_C_NO_BUFFER_SET" := MCast (TNamed "gss_buffer_set_t") 0]>
             (tu_macros st);
         tu_typedefs :=
           <["gss_buffer_set_t" := TPtr (TStruct "gss_buffer_set_desc_struct")]>
             (<["gss_buffer_set_desc" := TStruct "gss_buffer_set_desc_struct"]>
                (tu_typedefs st));
         tu_structs :=
           <["gss_buffer_set_desc_struct" := buffer_set_struct (tu_pack st)]>
             (tu_structs st);
         tu_protos :=
           <["gss_inquire_sec_context_by_oid" :=
               {| fd_import := imp; fd_ret := TNamed "OM_uint32";
                  fd_params := gss_inquire_sec_context_by_oid_params;
                  fd_linkage := current_linkage st |}]>
             (<["gss_release_buffer_set" :=
                  {| fd_import := imp; fd_ret := TNamed "OM_uint32";
                     fd_params := gss_release_buffer_set_params;
                     fd_linkage := current_linkage st |}]>
                (tu_protos st));
         tu_defined := tu_defined st;
         tu_pack := tu_pack st;
         tu_pack_stack := tu_pack_stack st;
         tu_extern_c := tu_extern_c st |}.
Proof.
  unfold ggf_extensions, seq_directive.
  destruct (typedef_struct _ _ _ _ st) as [st1|] eqn:H1; [|done].
  unfold typedef_struct in H1.
  destruct (negb _) in H1; [done|].
  destruct (tu_structs st !! _) eqn:Hs in H1; [done|].
  injection H1 as <-.
  unfold pp_define; simpl.
  unfold declare_function at 1; simpl.
  rewrite lookup_insert_ne by done.
  destruct (tu_macros st !! "GSS_DLLIMP") as [imp|] eqn:Himp; [|done].
  destruct (negb _); [done|].
  unfold declare_function; simpl.
  rewrite lookup_insert_ne by done. rewrite Himp.
  destruct (negb _); [done|].
  intros [= <-]. exists imp. split_and!; [done..|].
  unfold current_linkage; simpl.
  by rewrite macro_defined_insert_ne by done.
Qed.

(** With the guard already defined the header is skipped whole. *)
Lemma gssapi_ext_h_guarded TC st :
  macro_defined (tu_macros st) "_GSSAPI_EXT_H_" = true →
  gssapi_ext_h TC st = Ok st.
Proof. intros H. unfold gssapi_ext_h, pp_ifndef. by rewrite H. Qed.

(** The state the header leaves on its first inclusion. *)
Lemma gssapi_ext_h_spec TC st st' :
  macro_defined (tu_macros st) "_GSSAPI_EXT_H_" = false →
  gssapi_ext_h TC st = Ok st' →
  ∃ z imp,
    pack_condition (prelude_macros TC (tu_macros st)) = Some z ∧
    prelude_macros TC (tu_macros st) !! "GSS_DLLIMP" = Some imp ∧
    tu_structs st !! "gss_buffer_set_desc_struct" = None ∧
    st' =
      {| tu_macros :=
           <["GSS_C_NO_BUFFER_SET" := MCast (TNamed "gss_buffer_set_t") 0]>
             (prelude_macros TC (tu_macros st));
         tu_typedefs :=
           <["gss_buffer_set_t" := TPtr (TStruct "gss_buffer_set_desc_struct")]>
             (<["gss_buffer_set_desc" := TStruct "gss_buffer_set_desc_struct"]>
                (tu_typedefs st));
         tu_structs :=
           <["gss_buffer_set_desc_struct" :=
               buffer_set_struct (pack_at_struct z (tu_pack st))]>
             (tu_structs st);
         tu_protos :=
           <["gss_inquire_sec_context_by_oid" := inquire_proto imp]>
             (<["gss_release_buffer_set" := release_proto imp]> (tu_protos st));
         tu_defined := tu_defined st;
         tu_pack := tu_pack st;
         tu_pack_stack := tu_pack_stack st;
         tu_extern_c := tu_extern_c st |}.
Proof.
  intros Hguard. unfold gssapi_ext_h, pp_ifndef. rewrite Hguard.
  unfold seq_directive at 1. unfold pp_define at 1.
  unfold seq_directive at 1.
  destruct (apple_prelude TC _) as [st1|] eqn:Hpre; [|done].
  apply apple_prelude_spec in Hpre.
  set (ms := prelude_macros TC (tu_macros st)) in *.
  assert (st1 = with_macros (fun _ => ms) st) as -> by (by subst st1).
  clear Hpre.
  unfold seq_directive at 1.
  destruct (pp_ifdef _ _ _) as [st2|] eqn:Hext; [|done].
  assert (∃ n, st2 = with_extern_c n (with_macros (fun _ => ms) st) ∧
               (macro_defined ms "__cplusplus" = true → n = S (tu_extern_c st)) ∧
               (macro_defined ms "__cplusplus" = false → n = tu_extern_c st))
    as (n & -> & Hcxx & Hc).
  { unfold pp_ifdef, extern_C_open in Hext. simpl in Hext.
    destruct (macro_defined ms "__cplusplus"); injection Hext as <-.
    - eexists; split; [reflexivity|]. done.
    - exists (tu_extern_c st). destruct st; done. }
  clear Hext.
  unfold seq_directive at 1.
  destruct (pp_if pack_condition (pragma_pack_push 2) _) as [st3|] eqn:Hpush;
    [|done].
  unfold pp_if in Hpush. simpl in Hpush.
  destruct (pack_condition ms) as [z|] eqn:Hz; [|done].
  assert (st3 = with_pack (pack_at_struct z (tu_pack st))
                  (if bool_decide (z ≠ 0%Z)
                   then tu_pack st :: tu_pack_stack st else tu_pack_stack st)
                  (with_extern_c n (with_macros (fun _ => ms) st))) as ->.
  { unfold pack_at_struct. case_bool_decide; [|destruct st]; by injection Hpush. }
  clear Hpush.
  unfold seq_directive at 1.
  destruct (ggf_extensions _) as [st4|] eqn:Hggf; [|done].
  apply ggf_extensions_spec in Hggf as (imp & Himp & Hfresh & ->).
  simpl in Himp, Hfresh.
  assert (current_linkage
            (with_pack (pack_at_struct z (tu_pack st))
               (if bool_decide (z ≠ 0%Z)
                then tu_pack st :: tu_pack_stack st else tu_pack_stack st)
               (with_extern_c n (with_macros (fun _ => ms) st))) = LinkC) as ->.
  { unfold current_linkage; simpl. destruct n; [|done].
    destruct (macro_defined ms "__cplusplus"); [|done]. by specialize (Hcxx eq_refl). }
  unfold seq_directive, pp_if at 1. simpl.
  rewrite pack_condition_stable, Hz.
  intros Hend. exists z, imp. split_and!; [done..|].
  unfold release_proto, inquire_proto, pack_at_struct in *.
  unfold pp_ifdef, extern_C_close, pragma_pack_pop in Hend. simpl in Hend.
  destruct (bool_decide (z ≠ 0%Z)); simpl in Hend;
    rewrite macro_defined_insert_ne in Hend by done;
    destruct (macro_defined ms "__cplusplus");
    try (rewrite Hcxx in Hend by done); try (rewrite Hc in Hend by done);
    simpl in Hend; by injection Hend as <-.
Qed.

Lemma packing_applies_condition ms :
  packing_applies ms → pack_condition ms = Some 1%Z.
Proof.
  intros [(v & Hv & Hnz) Harch].
  assert (pp_ident "TARGET_OS_MAC" ms = Some v) as Hid
    by (unfold pp_ident; by rewrite Hv).
  unfold pack_condition, pp_and, pp_or, pp_defined. rewrite Hid.
  destruct (macro_defined ms "__ppc__"), (macro_defined ms "__ppc64__"),
    (macro_defined ms "__i386__"), (macro_defined ms "__x86_64__");
    try done; cbn;
    rewrite bool_decide_eq_true_2; auto.
Qed.

(** ** Packing *)

(** C10: the packing pragmas are balanced.  Whatever the macros, the types
    and the packing state at the point of inclusion, a translation that gets
    through the header leaves the current packing alignment and the stack of
    saved alignments exactly as it found them. *)
Theorem gssapi_ext_h_restores_pack TC st st' :
  gssapi_ext_h TC st = Ok st' →
  tu_pack st' = tu_pack st ∧ tu_pack_stack st' = tu_pack_stack st.
Proof.
  intros Hrun.
  destruct (macro_defined (tu_macros st) "_GSSAPI_EXT_H_") eqn:Hguard.
  - rewrite gssapi_ext_h_guarded in Hrun by done. by injection Hrun as <-.
  - apply gssapi_ext_h_spec in Hrun as (z & imp & _ & _ & _ & ->); done.
Qed.

Lemma gssapi_ext_h_restores_pack_macos :
  let st := with_pack (Some 4%N) [None] macos_x86_64 in
  let st' := state_after (gssapi_ext_h sdk_TargetConditionals) st in
  gssapi_ext_h sdk_TargetConditionals st = Ok st' ∧
  tu_pack st' = Some 4%N ∧ tu_pack_stack st' = [None].
Proof.
  split; [vm_compute; reflexivity|].
  apply (gssapi_ext_h_restores_pack sdk_TargetConditionals
           (with_pack (Some 4%N) [None] macos_x86_64)).
  vm_compute; reflexivity.
Defined.

(** ** The buffer-set structure *)

Lemma read_buffers_length {B} (m : memory B) n p l :
  read_buffers m p n = Some l → length l = n.
Proof.
  revert p l. induction n as [|n IH]; intros p l; simpl.
  - by intros [= <-].
  - destruct (load_buf m p) as [b|]; simpl; [|done].
    destruct (read_buffers m (p + 1) n) as [bs|] eqn:Hbs; simpl; [|done].
    intros [= <-]. simpl. f_equal. by eapply IH.
Qed.

(** Element [i] of the sequence is the descriptor stored at [p + i]. *)
Lemma read_buffers_lookup {B} (m : memory B) n p l (i : nat) :
  read_buffers m p n = Some l → i < n →
  l !! i = load_buf m (p + Z.of_nat i)%Z.
Proof.
  revert p l i. induction n as [|n IH]; intros p l i; simpl; [lia|].
  destruct (load_buf m p) as [b|] eqn:Hb; simpl; [|done].
  destruct (read_buffers m (p + 1) n) as [bs|] eqn:Hbs; simpl; [|done].
  intros [= <-] Hi. destruct i as [|i]; simpl.
  - by rewrite Z.add_0_r.
  - rewrite (IH _ _ i Hbs) by lia. f_equal. lia.
Qed.

(** C1: the structure the header defines has exactly two members, [count]
    of type [size_t] followed by [elements] of type [gss_buffer_desc *]
    (and the two typedef names stand for the structure and for a pointer to
    it); a value of it is its count together with its elements pointer; and
    the sequence a well-formed buffer set holds has as many elements as its
    [count] says. *)
Theorem gss_buffer_set_desc_shape {B} TC st st' (m : memory B) s :
  macro_defined (tu_macros st) "_GSSAPI_EXT_H_" = false →
  gssapi_ext_h TC st = Ok st' →
  well_formed m s →
  sd_fields <$> tu_structs st' !! "gss_buffer_set_desc_struct"
    = Some [ ("count", TNamed "size_t");
             ("elements", TPtr (TNamed "gss_buffer_desc")) ] ∧
  tu_typedefs st' !! "gss_buffer_set_desc"
    = Some (TStruct "gss_buffer_set_desc_struct") ∧
  tu_typedefs st' !! "gss_buffer_set_t"
    = Some (TPtr (TStruct "gss_buffer_set_desc_struct")) ∧
  s = {| count := count s; elements := elements s |} ∧
  ∃ l, buffer_set_elements m s = Some l ∧ N.of_nat (length l) = count s.
Proof.
  intros Hguard Hrun [l Hl].
  apply gssapi_ext_h_spec in Hrun as (z & imp & _ & _ & _ & ->); [|done].
  simpl. split_and!.
  - by rewrite lookup_insert_eq.
  - rewrite lookup_insert_ne by done. by rewrite lookup_insert_eq.
  - by rewrite lookup_insert_eq.
  - by destruct s.
  - exists l. split; [done|].
    apply read_buffers_length in Hl. rewrite Hl. lia.
Qed.

Lemma gss_buffer_set_desc_shape_sample :
  let st' := state_after (gssapi_ext_h sdk_TargetConditionals) macos_x86_64 in
  let s := {| count := 2; elements := 32 |} in
  sd_fields <$> tu_structs st' !! "gss_buffer_set_desc_struct"
    = Some [ ("count", TNamed "size_t");
             ("elements", TPtr (TNamed "gss_buffer_desc")) ] ∧
  tu_typedefs st' !! "gss_buffer_set_desc"
    = Some (TStruct "gss_buffer_set_desc_struct") ∧
  tu_typedefs st' !! "gss_buffer_set_t"
    = Some (TPtr (TStruct "gss_buffer_set_desc_struct")) ∧
  s = {| count := count s; elements := elements s |} ∧
  ∃ l, buffer_set_elements sample_memory s = Some l ∧
       N.of_nat (length l) = count s.
Proof.
  apply (gss_buffer_set_desc_shape sdk_TargetConditionals macos_x86_64).
  - vm_compute; reflexivity.
  - vm_compute; reflexivity.
  - exists ["first"; "second"]. vm_compute; reflexivity.
Defined.

(** ** The prototypes *)

(** The header declares two functions and no other; each returns
    [OM_uint32], and the first parameter of each is [OM_uint32 *minor_status],
    a pointer the callee can write through. *)
Lemma declared_prototypes_signature TC st st' :
  macro_defined (tu_macros st) "_GSSAPI_EXT_H_" = false →
  gssapi_ext_h TC st = Ok st' →
  (∀ name, name ≠ "gss_release_buffer_set" →
           name ≠ "gss_inquire_sec_context_by_oid" →
           tu_protos st' !! name = tu_protos st !! name) ∧
  (∀ name, name = "gss_release_buffer_set" ∨
           name = "gss_inquire_sec_context_by_oid" →
     ∃ d rest,
       tu_protos st' !! name = Some d ∧
       fd_ret d = TNamed "OM_uint32" ∧
       fd_params d = (TPtr (TNamed "OM_uint32"), "minor_status") :: rest ∧
       Forall (fun q => is_output_param q.1 = true) (take 1 (fd_params d))).
Proof.
  intros Hguard Hrun.
  apply gssapi_ext_h_spec in Hrun as (z & imp & _ & _ & _ & ->); [|done].
  simpl. split.
  - intros name Hrel Hinq. by rewrite !lookup_insert_ne.
  - intros name [-> | ->].
    + exists (release_proto imp). eexists.
      rewrite lookup_insert_ne by done. rewrite lookup_insert_eq.
      split_and!; [done..|]. by repeat constructor.
    + exists (inquire_proto imp). eexists.
      rewrite lookup_insert_eq.
      split_and!; [done..|]. by repeat constructor.
Qed.

(** C8: the header gives both entry points a prototype and gives no
    function a body: the set of functions defined in the translation unit is
    the same after the header as before it. *)
Theorem entry_points_declared_not_defined TC st st' :
  macro_defined (tu_macros st) "_GSSAPI_EXT_H_" = false →
  gssapi_ext_h TC st = Ok st' →
  is_Some (tu_protos st' !! "gss_release_buffer_set") ∧
  is_Some (tu_protos st' !! "gss_inquire_sec_context_by_oid") ∧
  tu_defined st' = tu_defined st.
Proof.
  intros Hguard Hrun.
  apply gssapi_ext_h_spec in Hrun as (z & imp & _ & _ & _ & ->); [|done].
  simpl. split_and!; [| |done].
  - rewrite lookup_insert_ne by done. rewrite lookup_insert_eq. by eexists.
  - rewrite lookup_insert_eq. by eexists.
Qed.

Lemma entry_points_declared_not_defined_linux :
  let st' := state_after (gssapi_ext_h sdk_TargetConditionals) linux_x86_64 in
  is_Some (tu_protos st' !! "gss_release_buffer_set") ∧
  is_Some (tu_protos st' !! "gss_inquire_sec_context_by_oid") ∧
  tu_defined st' = tu_defined linux_x86_64.
Proof.
  apply (entry_points_declared_not_defined sdk_TargetConditionals linux_x86_64);
    vm_compute; reflexivity.
Defined.

(** ** The null buffer set *)

(** C9: after the header, [GSS_C_NO_BUFFER_SET] is a macro for
    [((gss_buffer_set_t) 0)] and the only macro the declarations add to the
    table they are read under; its value is the null pointer, which points to
    no buffer set in any memory, and it is the only handle value with that
    property. *)
Theorem GSS_C_NO_BUFFER_SET_is_the_null_handle (B : Type) TC st st' :
  macro_defined (tu_macros st) "_GSSAPI_EXT_H_" = false →
  gssapi_ext_h TC st = Ok st' →
  tu_macros st' =
    <["GSS_C_NO_BUFFER_SET" := MCast (TNamed "gss_buffer_set_t") 0]>
      (prelude_macros TC (tu_macros st)) ∧
  (tu_macros st' !! "GSS_C_NO_BUFFER_SET") ≫= macro_pointer_value
    = Some GSS_C_NO_BUFFER_SET ∧
  GSS_C_NO_BUFFER_SET = NULL ∧
  (∀ m : memory B, load_set m GSS_C_NO_BUFFER_SET = None) ∧
  (∀ p : Z, (∀ m : memory B, load_set m p = None) → p = GSS_C_NO_BUFFER_SET).
Proof.
  intros Hguard Hrun.
  apply gssapi_ext_h_spec in Hrun as (z & imp & _ & _ & _ & ->); [|done].
  simpl. split_and!; try done.
  - by rewrite lookup_insert_eq.
  - intros p Hp.
    destruct (decide (p = NULL)) as [->|Hne]; [done|].
    specialize (Hp {| mem_sets := {[ p := {| count := 0; elements := NULL |} ]};
                      mem_bufs := ∅ |}).
    unfold load_set in Hp. rewrite bool_decide_eq_false_2 in Hp by done.
    simpl in Hp. by rewrite lookup_singleton_eq in Hp.
Qed.

Lemma GSS_C_NO_BUFFER_SET_is_the_null_handle_linux :
  let st' := state_after (gssapi_ext_h sdk_TargetConditionals) linux_x86_64 in
  tu_macros st' =
    <["GSS_C_NO_BUFFER_SET" := MCast (TNamed "gss_buffer_set_t") 0]>
      (prelude_macros sdk_TargetConditionals (tu_macros linux_x86_64)) ∧
  (tu_macros st' !! "GSS_C_NO_BUFFER_SET") ≫= macro_pointer_value
    = Some GSS_C_NO_BUFFER_SET ∧
  GSS_C_NO_BUFFER_SET = NULL ∧
  (∀ m : memory string, load_set m GSS_C_NO_BUFFER_SET = None) ∧
  (∀ p : Z, (∀ m : memory string, load_set m p = None) →
            p = GSS_C_NO_BUFFER_SET).
Proof.
  apply (GSS_C_NO_BUFFER_SET_is_the_null_handle string sdk_TargetConditionals
           linux_x86_64); vm_compute; reflexivity.
Defined.

(** ** Layout *)

Lemma align_up_0 a : align_up 0 a = 0%N.
Proof.
  unfold align_up. destruct (decide (a = 0%N)) as [->|Ha]; [done|].
  rewrite N.div_small by lia. done.
Qed.

(** C7: where the packing condition holds (a Mac target compiled for ppc,
    ppc64, i386 or x86_64), the structure is defined under [pack(2)]: both
    members, whose natural alignment is at least 2 on those targets, are
    aligned to 2, so the structure itself has alignment 2, with [count] at
    offset 0 and [elements] at the next even offset after it. *)
Theorem gss_buffer_set_desc_packed_2 (sizeof alignof : ctype → N) TC st st' :
  macro_defined (tu_macros st) "_GSSAPI_EXT_H_" = false →
  gssapi_ext_h TC st = Ok st' →
  packing_applies (prelude_macros TC (tu_macros st)) →
  (2 ≤ alignof (TNamed "size_t"))%N →
  (2 ≤ alignof (TPtr (TNamed "gss_buffer_desc")))%N →
  ∃ d, tu_structs st' !! "gss_buffer_set_desc_struct" = Some d ∧
       sd_pack d = Some 2%N ∧
       Forall (fun f => member_align alignof (sd_pack d) f.2 = 2%N)
              (sd_fields d) ∧
       struct_align alignof d = 2%N ∧
       struct_offsets sizeof alignof d =
         [ ("count", 0%N);
           ("elements", align_up (sizeof (TNamed "size_t")) 2) ].
Proof.
  intros Hguard Hrun Happ Hsz Hptr.
  apply gssapi_ext_h_spec in Hrun as (z & imp & Hz & _ & _ & ->); [|done].
  rewrite (packing_applies_condition _ Happ) in Hz. injection Hz as <-.
  eexists. simpl. rewrite lookup_insert_eq. split; [done|].
  assert (N.min 2 (alignof (TNamed "size_t")) = 2%N) as Ha by lia.
  assert (N.min 2 (alignof (TPtr (TNamed "gss_buffer_desc"))) = 2%N) as Hb
    by lia.
  split_and!.
  - done.
  - repeat constructor; simpl; done.
  - unfold struct_align; simpl. rewrite Ha, Hb. done.
  - unfold struct_offsets; simpl. rewrite Ha, Hb, align_up_0. done.
Qed.

Lemma gss_buffer_set_desc_packed_2_macos :
  let st' := state_after (gssapi_ext_h sdk_TargetConditionals) macos_x86_64 in
  ∃ d, tu_structs st' !! "gss_buffer_set_desc_struct" = Some d ∧
       sd_pack d = Some 2%N ∧
       Forall (fun f => member_align lp64_alignof (sd_pack d) f.2 = 2%N)
              (sd_fields d) ∧
       struct_align lp64_alignof d = 2%N ∧
       struct_offsets lp64_sizeof lp64_alignof d =
         [ ("count", 0%N);
           ("elements", align_up (lp64_sizeof (TNamed "size_t")) 2) ].
Proof.
  apply (gss_buffer_set_desc_packed_2 lp64_sizeof lp64_alignof
           sdk_TargetConditionals macos_x86_64).
  - vm_compute; reflexivity.
  - vm_compute; reflexivity.
  - split.
    + exists 1%Z. split; [vm_compute; reflexivity | done].
    + vm_compute; reflexivity.
  - vm_compute; discriminate.
  - vm_compute; discriminate.
Defined.

(** ** The provider model *)

Section ProviderProperties.

Import Provider.

Context {gss_buffer_desc gss_ctx_id_t gss_OID : Type}.
Variable GSS_ERROR : OM_uint32 → bool.
Variable provider_inquire :
  gss_ctx_id_t → gss_OID → OM_uint32 * OM_uint32 * list gss_buffer_desc.
Variable provider_release : gss_buffer_set_t → OM_uint32 * OM_uint32.

Implicit Types (bufs : gmap Z gss_buffer_desc) (vals : list gss_buffer_desc).
Implicit Types (w : world (gss_buffer_desc := gss_buffer_desc)).

Lemma store_buffers_lookup bufs p vals a :
  store_buffers bufs p vals !! a =
    if bool_decide (p ≤ a < p + Z.of_nat (length vals))%Z
    then vals !! Z.to_nat (a - p) else bufs !! a.
Proof.
  revert p. induction vals as [|b vals IH]; intros p; simpl.
  - rewrite bool_decide_eq_false_2 by lia. done.
  - destruct (decide (a = p)) as [->|Hne].
    + rewrite lookup_insert_eq, bool_decide_eq_true_2 by lia.
      by rewrite Z.sub_diag.
    + rewrite lookup_insert_ne by done. rewrite IH.
      case_bool_decide.
      * rewrite bool_decide_eq_true_2 by lia.
        replace (Z.to_nat (a - p)) with (S (Z.to_nat (a - (p + 1)))) by lia.
        done.
      * rewrite bool_decide_eq_false_2 by lia. done.
Qed.

Lemma free_buffers_lookup bufs p n a :
  free_buffers bufs p n !! a =
    if bool_decide (p ≤ a < p + Z.of_nat n)%Z then None else bufs !! a.
Proof.
  revert p. induction n as [|n IH]; intros p; simpl.
  - rewrite bool_decide_eq_false_2 by lia. done.
  - destruct (decide (a = p)) as [->|Hne].
    + rewrite lookup_delete_eq, bool_decide_eq_true_2 by lia. done.
    + rewrite lookup_delete_ne by done. rewrite IH.
      case_bool_decide.
      * rewrite bool_decide_eq_true_2 by lia. done.
      * rewrite bool_decide_eq_false_2 by lia. done.
Qed.

(** Reading back what was stored. *)
Lemma read_stored_buffers sets bufs p vals :
  (0 < p)%Z →
  read_buffers {| mem_sets := sets; mem_bufs := store_buffers bufs p vals |}
    p (length vals) = Some vals.
Proof.
  intros Hp.
  assert (∀ (k : nat) rest,
            (k + length rest = length vals)%nat →
            drop k vals = rest →
            read_buffers
              {| mem_sets := sets; mem_bufs := store_buffers bufs p vals |}
              (p + Z.of_nat k) (length rest) = Some rest) as Hgen.
  { intros k rest. revert k. induction rest as [|b rest IH]; intros k Hlen Hdrop.
    - done.
    - simpl in *. unfold load_buf. rewrite bool_decide_eq_false_2
        by (unfold NULL; lia).
      simpl. rewrite store_buffers_lookup, bool_decide_eq_true_2 by lia.
      replace (Z.to_nat (p + Z.of_nat k - p)) with k by lia.
      assert (vals !! k = Some b) as ->.
      { rewrite <- (Nat.add_0_r k), <- lookup_drop, Hdrop. done. }
      simpl.
      replace (p + Z.of_nat k + 1)%Z with (p + Z.of_nat (S k))%Z by lia.
      rewrite IH; [done | lia |].
      replace (S k) with (k + 1)%nat by lia. by rewrite <- drop_drop, Hdrop. }
  specialize (Hgen 0%nat vals). rewrite Z.add_0_r in Hgen. by apply Hgen.
Qed.

Lemma alloc_buffer_set_spec vals w p w' :
  world_ok w →
  alloc_buffer_set vals w = (p, w') →
  p = w_next w ∧ p ≠ NULL ∧
  load_set (w_mem w) p = None ∧
  (∃ s, load_set (w_mem w') p = Some s ∧
        count s = N.of_nat (length vals)) ∧
  handle_elements (w_mem w') p = Some vals ∧
  (∀ q, q ≠ p → load_set (w_mem w') q = load_set (w_mem w) q) ∧
  (w_next w ≤ w_next w')%Z ∧
  world_ok w'.
Proof.
  intros (Hnext & Hsets & Hbufs). unfold alloc_buffer_set.
  intros [= <- <-]. simpl.
  assert (w_next w ≠ NULL) as Hnn by (unfold NULL; lia).
  split_and!; try done.
  - unfold load_set. rewrite bool_decide_eq_false_2 by done.
    destruct (mem_sets (w_mem w) !! w_next w) eqn:Hl; [|done].
    specialize (Hsets (w_next w) (mk_is_Some _ _ Hl)). lia.
  - eexists. unfold load_set. rewrite bool_decide_eq_false_2 by done.
    simpl. rewrite lookup_insert_eq. done.
  - unfold handle_elements, load_set.
    rewrite bool_decide_eq_false_2 by done.
    simpl. rewrite lookup_insert_eq. simpl.
    unfold buffer_set_elements. simpl. rewrite Nat2N.id.
    destruct vals as [|b vals]; [done|].
    apply read_stored_buffers. lia.
  - intros q Hq. unfold load_set. simpl.
    by rewrite lookup_insert_ne.
  - lia.
  - split_and!; simpl.
    + lia.
    + intros a. destruct (decide (a = w_next w)) as [->|Hne].
      * intros _. lia.
      * rewrite lookup_insert_ne by done. intros Ha.
        specialize (Hsets a Ha). lia.
    + intros a. rewrite store_buffers_lookup. case_bool_decide.
      * intros _. lia.
      * intros Ha. specialize (Hbufs a Ha). lia.
Qed.

Lemma free_buffer_set_spec p s w :
  load_set (w_mem w) p = Some s →
  load_set (w_mem (free_buffer_set p w)) p = None ∧
  (∀ i : nat, i < N.to_nat (count s) →
     load_buf (w_mem (free_buffer_set p w)) (elements s + Z.of_nat i)%Z = None) ∧
  (∀ q, q ≠ p →
     load_set (w_mem (free_buffer_set p w)) q = load_set (w_mem w) q) ∧
  w_next (free_buffer_set p w) = w_next w ∧
  (world_ok w → world_ok (free_buffer_set p w)).
Proof.
  intros Hs. unfold free_buffer_set. rewrite Hs. simpl. split_and!.
  - unfold load_set. simpl. rewrite lookup_delete_eq. by case_bool_decide.
  - intros i Hi. unfold load_buf. simpl.
    generalize dependent (N.to_nat (count s)). intros n Hi.
    rewrite free_buffers_lookup.
    case_bool_decide; [done|]. by rewrite bool_decide_eq_true_2 by lia.
  - intros q Hq. unfold load_set. simpl. by rewrite lookup_delete_ne.
  - done.
  - intros (Hnext & Hsets & Hbufs). split_and!; simpl; [done| |].
    + intros a Ha. apply Hsets.
      destruct (decide (a = p)) as [->|Hne].
      * rewrite lookup_delete_eq in Ha. by destruct Ha.
      * by rewrite lookup_delete_ne in Ha.
    + intros a Ha. apply Hbufs.
      rewrite free_buffers_lookup in Ha. case_bool_decide; [|done].
      by destruct Ha.
Qed.

(** C3: the model of the query.  The word it returns and the minor status
    it stores are the provider's.  When that word is not a failure, the
    output parameter receives a fresh non-null handle to a buffer set in
    memory whose count is the number of the property's values and whose
    elements are those values in order.  When it is a failure, the output
    parameter keeps the value it had and nothing is allocated: only the
    returned word tells. *)
Theorem inquire_returns_set_or_status ctx oid old w st p w' major minor vals :
  world_ok w →
  provider_inquire ctx oid = (major, minor, vals) →
  gss_inquire_sec_context_by_oid GSS_ERROR provider_inquire ctx oid old w
    = (st, p, w') →
  major_status st = major ∧ minor_status st = minor ∧
  (GSS_ERROR major = false →
     p ≠ GSS_C_NO_BUFFER_SET ∧
     load_set (w_mem w) p = None ∧
     (∃ s, load_set (w_mem w') p = Some s ∧
           count s = N.of_nat (length vals)) ∧
     handle_elements (w_mem w') p = Some vals ∧
     world_ok w') ∧
  (GSS_ERROR major = true → p = old ∧ w' = w).
Proof.
  intros Hok Hprov. unfold gss_inquire_sec_context_by_oid. rewrite Hprov.
  destruct (GSS_ERROR major) eqn:Herr.
  - intros [= <- <- <-]. simpl. split_and!; done.
  - destruct (alloc_buffer_set vals w) as [p0 w0] eqn:Halloc.
    intros [= <- <- <-]. simpl.
    apply alloc_buffer_set_spec in Halloc
      as (_ & Hnn & Hfresh & Hset & Helems & _ & _ & Hok'); [|done].
    split_and!; done.
Qed.

(** C4: the model of the release.  The word it returns and the minor status
    it stores are the provider's, by the same convention as the query.  When
    that word is not a failure, the one call has removed the structure and
    every one of its [count] elements from memory and has left all other
    buffer sets in place.  When it is a failure, nothing was released. *)
Theorem release_frees_whole_set p s w st w' :
  load_set (w_mem w) p = Some s →
  gss_release_buffer_set GSS_ERROR provider_release p w = (st, w') →
  (major_status st, minor_status st) = provider_release p ∧
  (GSS_ERROR (major_status st) = false →
     load_set (w_mem w') p = None ∧
     (∀ i : nat, i < N.to_nat (count s) →
        load_buf (w_mem w') (elements s + Z.of_nat i)%Z = None) ∧
     (∀ q, q ≠ p → load_set (w_mem w') q = load_set (w_mem w) q)) ∧
  (GSS_ERROR (major_status st) = true → w' = w).
Proof.
  intros Hs. unfold gss_release_buffer_set.
  destruct (provider_release p) as [major minor].
  destruct (GSS_ERROR major) eqn:Herr.
  - intros [= <- <-]. simpl. rewrite Herr. split_and!; done.
  - intros [= <- <-]. simpl. rewrite Herr.
    destruct (free_buffer_set_spec p s w Hs) as (H1 & H2 & H3 & _).
    split_and!; done.
Qed.

Lemma initial_world_ok : world_ok (gss_buffer_desc := gss_buffer_desc) initial_world.
Proof.
  split_and!; simpl; [lia | |]; intros a [x Hx]; by rewrite lookup_empty in Hx.
Qed.





End ProviderProperties.

(** *** The sample provider *)

Lemma inquire_returns_set_or_status_sample :
  let r := Provider.gss_inquire_sec_context_by_oid sample_GSS_ERROR
             sample_inquire tt 0%nat GSS_C_NO_BUFFER_SET
             (Provider.initial_world (gss_buffer_desc := string)) in
  Provider.major_status r.1.1 = 0%N ∧ Provider.minor_status r.1.1 = 0%N ∧
  (sample_GSS_ERROR 0 = false →
     r.1.2 ≠ GSS_C_NO_BUFFER_SET ∧
     load_set (Provider.w_mem (Provider.initial_world (gss_buffer_desc := string))) r.1.2 = None ∧
     (∃ s, load_set (Provider.w_mem r.2) r.1.2 = Some s ∧
           count s = N.of_nat (length ["first"; "second"])) ∧
     handle_elements (Provider.w_mem r.2) r.1.2 = Some ["first"; "second"] ∧
     Provider.world_ok r.2) ∧
  (sample_GSS_ERROR 0 = true →
     r.1.2 = GSS_C_NO_BUFFER_SET ∧ r.2 = (Provider.initial_world (gss_buffer_desc := string))).
Proof.
  apply (inquire_returns_set_or_status sample_GSS_ERROR sample_inquire
           tt 0%nat GSS_C_NO_BUFFER_SET (Provider.initial_world (gss_buffer_desc := string))).
  - apply initial_world_ok.
  - reflexivity.
  - reflexivity.
Defined.

Lemma release_frees_whole_set_sample :
  let s := {| count := 2; elements := 2 |} in
  let r := Provider.gss_release_buffer_set sample_GSS_ERROR sample_release
             1%Z world_after_query in
  (Provider.major_status r.1, Provider.minor_status r.1) = sample_release 1 ∧
  (sample_GSS_ERROR (Provider.major_status r.1) = false →
     load_set (Provider.w_mem r.2) 1%Z = None ∧
     (∀ i : nat, i < N.to_nat (count s) →
        load_buf (Provider.w_mem r.2) (elements s + Z.of_nat i)%Z = None) ∧
     (∀ q, q ≠ 1%Z →
        load_set (Provider.w_mem r.2) q =
        load_set (Provider.w_mem world_after_query) q)) ∧
  (sample_GSS_ERROR (Provider.major_status r.1) = true →
     r.2 = world_after_query).
Proof.
  apply (release_frees_whole_set sample_GSS_ERROR sample_release 1%Z
           {| count := 2; elements := 2 |} world_after_query).
  - vm_compute; reflexivity.
  - reflexivity.
Defined.

(** ** When the header translates *)

Lemma ggf_extensions_ok st :
  is_Some (tu_macros st !! "GSS_DLLIMP") →
  tu_structs st !! "gss_buffer_set_desc_struct" = None →
  Forall (fun name => is_Some (tu_typedefs st !! name))
    ["size_t"; "gss_buffer_desc"; "OM_uint32"; "gss_ctx_id_t"; "gss_OID"] →
  is_ok (ggf_extensions st) = true.
Proof.
  intros [imp Himp] Hfresh Htypes.
  apply Forall_cons in Htypes as [[t1 H1] Htypes].
  apply Forall_cons in Htypes as [[t2 H2] Htypes].
  apply Forall_cons in Htypes as [[t3 H3] Htypes].
  apply Forall_cons in Htypes as [[t4 H4] Htypes].
  apply Forall_cons in Htypes as [[t5 H5] _].
  unfold ggf_extensions, seq_directive, typedef_struct, declare_function,
    pp_define.
  repeat progress
    (cbn [forallb gss_buffer_set_desc_fields gss_release_buffer_set_params
          gss_inquire_sec_context_by_oid_params fst snd negb andb
          type_in_scope tu_macros tu_typedefs tu_structs
          with_macros with_typedef with_struct with_proto];
     rewrite ?lookup_insert_eq;
     rewrite ?lookup_insert_ne by done;
     rewrite ?H1, ?H2, ?H3, ?H4, ?H5, ?Hfresh, ?Himp;
     rewrite ?bool_decide_eq_true_2 by (by eexists)).
  done.
Qed.

(** In this model of translation, which looks at integer macro bodies only
    and does not check a declaration against earlier ones of the same name,
    the header gets through whenever it follows gssapi.h (the five type names
    and [GSS_DLLIMP] are known, the structure tag is unused), the packing
    condition is an integer expression, and the target is not CFM. *)
Lemma gssapi_ext_h_succeeds TC st z :
  let ms1 := <["_GSSAPI_EXT_H_" := MEmpty]> (tu_macros st) in
  let ms := prelude_macros TC (tu_macros st) in
  macro_defined (tu_macros st) "_GSSAPI_EXT_H_" = false →
  (macro_defined ms1 "__MACH__" && macro_defined ms1 "__APPLE__" = true →
   pp_ident "TARGET_RT_MAC_CFM" (TC ms1) = Some 0%Z) →
  pack_condition ms = Some z →
  is_Some (ms !! "GSS_DLLIMP") →
  tu_structs st !! "gss_buffer_set_desc_struct" = None →
  Forall (fun name => is_Some (tu_typedefs st !! name))
    ["size_t"; "gss_buffer_desc"; "OM_uint32"; "gss_ctx_id_t"; "gss_OID"] →
  is_ok (gssapi_ext_h TC st) = true.
Proof.
  intros ms1 ms Hguard Hcfm Hz Himp Hfresh Htypes.
  unfold gssapi_ext_h, pp_ifndef. rewrite Hguard.
  unfold seq_directive at 1. unfold pp_define at 1.
  unfold seq_directive at 1.
  assert (apple_prelude TC (with_macros (insert "_GSSAPI_EXT_H_" MEmpty) st)
          = Ok (with_macros (fun _ => ms) st)) as ->.
  { unfold apple_prelude, pp_if, pp_and, pp_defined, seq_directive,
      pp_include, pp_error.
    cbn [tu_macros with_macros]. fold ms1.
    unfold ms, prelude_macros. fold ms1. revert Hcfm.
    destruct (macro_defined ms1 "__MACH__"), (macro_defined ms1 "__APPLE__");
      cbn; try done.
    intros ->; done. }
  unfold seq_directive at 1.
  destruct (pp_ifdef "__cplusplus" extern_C_open _) as [st2|] eqn:Hext.
  2: { unfold pp_ifdef, extern_C_open in Hext.
       by destruct (macro_defined _ _) in Hext. }
  assert (∃ n, st2 = with_extern_c n (with_macros (fun _ => ms) st) ∧
               (macro_defined ms "__cplusplus" = true → n ≠ O)) as (n & -> & Hn).
  { unfold pp_ifdef, extern_C_open in Hext. cbn [tu_macros with_macros] in Hext.
    destruct (macro_defined ms "__cplusplus"); injection Hext as <-.
    - by eexists.
    - exists (tu_extern_c st). by destruct st. }
  clear Hext.
  unfold seq_directive at 1, pp_if at 1. cbn [tu_macros with_macros with_extern_c].
  rewrite Hz.
  set (st3 := if bool_decide (z ≠ 0%Z) then _ else _).
  assert (∃ pk stk, st3 = Ok (with_pack pk stk
                    (with_extern_c n (with_macros (fun _ => ms) st))))
    as (pk & stk & ->).
  { subst st3. case_bool_decide.
    - by eexists _, _.
    - exists (tu_pack st), (tu_pack_stack st). by destruct st. }
  unfold seq_directive at 1.
  destruct (ggf_extensions _) as [st4|] eqn:Hggf.
  2: { assert (is_ok (ggf_extensions
                        (with_pack pk stk
                           (with_extern_c n (with_macros (fun _ => ms) st))))
               = true) as Hok by (by apply ggf_extensions_ok).
       by rewrite Hggf in Hok. }
  apply ggf_extensions_spec in Hggf as (imp & _ & _ & ->).
  unfold seq_directive, pp_if. cbn [tu_macros with_macros with_extern_c with_pack].
  rewrite pack_condition_stable, Hz.
  set (st5 := if bool_decide (z ≠ 0%Z) then _ else _).
  assert (∃ st6, st5 = Ok st6 ∧ tu_extern_c st6 = n ∧
                 macro_defined (tu_macros st6) "__cplusplus"
                 = macro_defined ms "__cplusplus") as (st6 & -> & <- & Hcxx).
  { subst st5. unfold pragma_pack_pop. cbn [tu_pack_stack with_pack].
    case_bool_decide; [destruct stk|]; eexists; split; try done;
      cbn; by rewrite macro_defined_insert_ne. }
  unfold pp_ifdef, extern_C_close. rewrite Hcxx.
  destruct (macro_defined ms "__cplusplus"); [|done].
  specialize (Hn eq_refl). by destruct (tu_extern_c st6).
Qed.

(** A CFM target is turned away by the [#error] line. *)
Example gssapi_ext_h_rejects_cfm :
  gssapi_ext_h
    (fun ms => <["TARGET_OS_MAC" := MInt 1]> (<["TARGET_RT_MAC_CFM" := MInt 1]> ms))
    macos_x86_64
  = Err "Use KfM 4.0 SDK headers for CFM compilation.".
Proof. vm_compute; reflexivity. Qed.

(** Without gssapi.h before it the header does not translate. *)
Example gssapi_ext_h_needs_gssapi_h :
  is_ok (gssapi_ext_h sdk_TargetConditionals
           {| tu_macros := ∅; tu_typedefs := ∅; tu_structs := ∅;
              tu_protos := ∅; tu_defined := ∅; tu_pack := None;
              tu_pack_stack := []; tu_extern_c := 0 |}) = false.
Proof. vm_compute; reflexivity. Qed.

(** On a target where the packing condition fails the structure keeps the
    packing of its surroundings. *)
Example gssapi_ext_h_linux_unpacked :
  sd_pack <$>
    tu_structs (state_after (gssapi_ext_h sdk_TargetConditionals) linux_x86_64)
      !! "gss_buffer_set_desc_struct"
  = Some None.
Proof. vm_compute; reflexivity. Qed.

(** On macOS for x86_64 the packed structure takes 16 bytes, [elements] at
    offset 8, and needs alignment 2 only. *)
Example gssapi_ext_h_macos_layout :
  (fun d => (struct_offsets lp64_sizeof lp64_alignof d,
             struct_size lp64_sizeof lp64_alignof d,
             struct_align lp64_alignof d)) <$>
    tu_structs (state_after (gssapi_ext_h sdk_TargetConditionals) macos_x86_64)
      !! "gss_buffer_set_desc_struct"
  = Some ([("count", 0%N); ("elements", 8%N)], 16%N, 2%N).
Proof. vm_compute; reflexivity. Qed.

(** ** More about the header: guard, linkage, prerequisites, frame *)

Lemma pp_and_nonzero (a b : pp_expr) ms z :
  (a &&& b) ms = Some z → z ≠ 0%Z →
  ∃ x y, a ms = Some x ∧ b ms = Some y ∧ x ≠ 0%Z ∧ y ≠ 0%Z.
Proof.
  unfold pp_and. destruct (a ms) as [x|], (b ms) as [y|]; simpl; try done.
  intros Heq Hz. injection Heq as Heq. subst z.
  exists x, y. case_bool_decide as Hd; [|done]. destruct Hd. auto.
Qed.

Lemma pp_or_nonzero (a b : pp_expr) ms z :
  (a ||| b) ms = Some z → z ≠ 0%Z →
  ∃ x y, a ms = Some x ∧ b ms = Some y ∧ (x ≠ 0%Z ∨ y ≠ 0%Z).
Proof.
  unfold pp_or. destruct (a ms) as [x|], (b ms) as [y|]; simpl; try done.
  intros Heq Hz. injection Heq as Heq. subst z.
  exists x, y. case_bool_decide; naive_solver.
Qed.

Lemma pp_defined_nonzero name ms x :
  pp_defined name ms = Some x → x ≠ 0%Z → macro_defined ms name = true.
Proof.
  unfold pp_defined. destruct (macro_defined ms name); [done|].
  by intros [= <-].
Qed.

Lemma pp_ident_nonzero name ms x :
  pp_ident name ms = Some x → x ≠ 0%Z → ms !! name = Some (MInt x).
Proof.
  unfold pp_ident. destruct (ms !! name) as [[| z | |]|]; try done.
  - by intros [= <-].
  - by intros [= <-].
Qed.

(** The packing condition is non-zero only on the targets it names. *)
Lemma pack_condition_applies ms z :
  pack_condition ms = Some z → z ≠ 0%Z → packing_applies ms.
Proof.
  unfold pack_condition. intros Hc Hz.
  apply pp_and_nonzero in Hc as (x & y & Hx & Hy & Hxn & Hyn); [|done].
  split.
  - exists x. split; [|done]. by apply pp_ident_nonzero.
  - apply pp_or_nonzero in Hy as (y1 & y2 & Hy1 & Hy2 & Hor); [|done].
    destruct Hor as [Hn | Hn].
    + apply pp_or_nonzero in Hy1 as (y3 & y4 & Hy3 & Hy4 & Hor); [|done].
      destruct Hor as [Hn' | Hn'].
      * apply pp_or_nonzero in Hy3 as (y5 & y6 & Hy5 & Hy6 & Hor); [|done].
        destruct Hor as [Hn'' | Hn''].
        -- by rewrite (pp_defined_nonzero _ _ _ Hy5 Hn'').
        -- rewrite (pp_defined_nonzero _ _ _ Hy6 Hn'').
           by rewrite orb_true_r.
      * rewrite (pp_defined_nonzero _ _ _ Hy4 Hn').
        by rewrite orb_true_r.
    + rewrite (pp_defined_nonzero _ _ _ Hy2 Hn). by rewrite orb_true_r.
Qed.

(** X1: the include guard makes the header idempotent.  Provided the system
    header does not undefine the guard, a second inclusion right after a
    first one that got through changes nothing at all: no second structure
    definition, no second push on the packing stack. *)
Theorem gssapi_ext_h_idempotent TC st st' :
  (∀ ms, macro_defined ms "_GSSAPI_EXT_H_" = true →
         macro_defined (TC ms) "_GSSAPI_EXT_H_" = true) →
  gssapi_ext_h TC st = Ok st' →
  gssapi_ext_h TC st' = Ok st'.
Proof.
  intros Hkeep Hrun.
  destruct (macro_defined (tu_macros st) "_GSSAPI_EXT_H_") eqn:Hguard.
  - rewrite gssapi_ext_h_guarded in Hrun by done. injection Hrun as <-.
    by apply gssapi_ext_h_guarded.
  - apply gssapi_ext_h_spec in Hrun as (z & imp & _ & _ & _ & ->); [|done].
    apply gssapi_ext_h_guarded. simpl.
    rewrite macro_defined_insert_ne by done.
    assert (macro_defined (<["_GSSAPI_EXT_H_" := MEmpty]> (tu_macros st))
              "_GSSAPI_EXT_H_" = true) as Hdef
      by (unfold macro_defined; by rewrite lookup_insert_eq).
    unfold prelude_macros. cbv zeta.
    destruct (_ && _); [by apply Hkeep | done].
Qed.

Lemma gssapi_ext_h_idempotent_macos :
  let st' := state_after (gssapi_ext_h sdk_TargetConditionals) macos_x86_64 in
  gssapi_ext_h sdk_TargetConditionals st' = Ok st'.
Proof.
  apply (gssapi_ext_h_idempotent sdk_TargetConditionals macos_x86_64).
  - intros ms Hms. unfold sdk_TargetConditionals.
    by rewrite !macro_defined_insert_ne.
  - vm_compute; reflexivity.
Defined.

(** X2: both entry points get C language linkage, also when the translation
    unit is C++ ([__cplusplus] defined): the header opens [extern "C"] before
    the prototypes and closes it at the end, so the nesting of [extern "C"]
    blocks is the same after the header as before. *)
Theorem entry_points_have_C_linkage TC st st' :
  macro_defined (tu_macros st) "_GSSAPI_EXT_H_" = false →
  gssapi_ext_h TC st = Ok st' →
  (∀ name d,
     name = "gss_release_buffer_set" ∨
     name = "gss_inquire_sec_context_by_oid" →
     tu_protos st' !! name = Some d → fd_linkage d = LinkC) ∧
  tu_extern_c st' = tu_extern_c st.
Proof.
  intros Hguard Hrun.
  apply gssapi_ext_h_spec in Hrun as (z & imp & _ & _ & _ & ->); [|done].
  simpl. split; [|done].
  intros name d [-> | ->].
  - rewrite lookup_insert_ne by done. rewrite lookup_insert_eq.
    by intros [= <-].
  - rewrite lookup_insert_eq. by intros [= <-].
Qed.

Lemma entry_points_have_C_linkage_cxx :
  let st := with_macros (insert "__cplusplus" (MInt 201703)) macos_x86_64 in
  let st' := state_after (gssapi_ext_h sdk_TargetConditionals) st in
  (∀ name d,
     name = "gss_release_buffer_set" ∨
     name = "gss_inquire_sec_context_by_oid" →
     tu_protos st' !! name = Some d → fd_linkage d = LinkC) ∧
  tu_extern_c st' = tu_extern_c st.
Proof.
  apply (entry_points_have_C_linkage sdk_TargetConditionals
           (with_macros (insert "__cplusplus" (MInt 201703)) macos_x86_64));
    vm_compute; reflexivity.
Defined.

(** X3: on an Apple target ([__MACH__] and [__APPLE__] defined) whose
    TargetConditionals.h sets [TARGET_RT_MAC_CFM] to a non-zero integer, the
    first inclusion stops at the [#error] line with its message; nothing of
    the header is declared. *)
Theorem cfm_target_is_rejected TC st v :
  macro_defined (tu_macros st) "_GSSAPI_EXT_H_" = false →
  macro_defined (tu_macros st) "__MACH__" = true →
  macro_defined (tu_macros st) "__APPLE__" = true →
  pp_ident "TARGET_RT_MAC_CFM"
    (TC (<["_GSSAPI_EXT_H_" := MEmpty]> (tu_macros st))) = Some v →
  v ≠ 0%Z →
  gssapi_ext_h TC st = Err "Use KfM 4.0 SDK headers for CFM compilation.".
Proof.
  intros Hguard Hmach Happle Hcfm Hv.
  unfold gssapi_ext_h, pp_ifndef. rewrite Hguard.
  unfold seq_directive at 1. unfold pp_define at 1.
  unfold seq_directive at 1.
  assert (apple_prelude TC (with_macros (insert "_GSSAPI_EXT_H_" MEmpty) st)
          = Err "Use KfM 4.0 SDK headers for CFM compilation.") as ->; [|done].
  unfold apple_prelude, pp_if at 1, pp_and, pp_defined.
  cbn [tu_macros with_macros].
  rewrite !macro_defined_insert_ne by done. rewrite Hmach, Happle. cbn.
  unfold seq_directive, pp_include, pp_if, pp_error.
  cbn [tu_macros with_macros]. rewrite Hcfm.
  rewrite (bool_decide_eq_true_2 (v ≠ 0%Z)) by done.
  by rewrite bool_decide_eq_true_2 by done.
Qed.

Lemma cfm_target_is_rejected_macos :
  gssapi_ext_h
    (fun ms => <["TARGET_OS_MAC" := MInt 1]> (<["TARGET_RT_MAC_CFM" := MInt 1]> ms))
    macos_x86_64
  = Err "Use KfM 4.0 SDK headers for CFM compilation.".
Proof.
  apply (cfm_target_is_rejected
           (fun ms => <["TARGET_OS_MAC" := MInt 1]>
                        (<["TARGET_RT_MAC_CFM" := MInt 1]> ms))
           macos_x86_64 1%Z); try (vm_compute; reflexivity).
  discriminate.
Defined.

(** X5: the header declares nothing besides its own names.  Whether the
    guard lets it through or skips it, every typedef name other than
    [gss_buffer_set_desc] and [gss_buffer_set_t] and every structure tag
    other than [gss_buffer_set_desc_struct] means after the header what it
    meant before; and off Apple targets (no system header read) the only
    macros that can change are the guard and [GSS_C_NO_BUFFER_SET]. *)
Theorem gssapi_ext_h_declares_nothing_else TC st st' :
  gssapi_ext_h TC st = Ok st' →
  (∀ name, name ≠ "gss_buffer_set_desc" → name ≠ "gss_buffer_set_t" →
           tu_typedefs st' !! name = tu_typedefs st !! name) ∧
  (∀ tag, tag ≠ "gss_buffer_set_desc_struct" →
          tu_structs st' !! tag = tu_structs st !! tag) ∧
  (macro_defined (tu_macros st) "__MACH__"
     && macro_defined (tu_macros st) "__APPLE__" = false →
   ∀ name, name ≠ "_GSSAPI_EXT_H_" → name ≠ "GSS_C_NO_BUFFER_SET" →
           tu_macros st' !! name = tu_macros st !! name).
Proof.
  intros Hrun.
  destruct (macro_defined (tu_macros st) "_GSSAPI_EXT_H_") eqn:Hguard.
  - rewrite gssapi_ext_h_guarded in Hrun by done. by injection Hrun as <-.
  - apply gssapi_ext_h_spec in Hrun as (z & imp & _ & _ & _ & ->); [|done].
    simpl. split_and!.
    + intros name H1 H2. by rewrite !lookup_insert_ne.
    + intros tag Ht. by rewrite lookup_insert_ne.
    + intros Happle name H1 H2. rewrite lookup_insert_ne by done.
      unfold prelude_macros. cbv zeta.
      rewrite !macro_defined_insert_ne by done. rewrite Happle.
      by rewrite lookup_insert_ne.
Qed.

Lemma gssapi_ext_h_declares_nothing_else_linux :
  let st' := state_after (gssapi_ext_h sdk_TargetConditionals) linux_x86_64 in
  (∀ name, name ≠ "gss_buffer_set_desc" → name ≠ "gss_buffer_set_t" →
           tu_typedefs st' !! name = tu_typedefs linux_x86_64 !! name) ∧
  (∀ tag, tag ≠ "gss_buffer_set_desc_struct" →
          tu_structs st' !! tag = tu_structs linux_x86_64 !! tag) ∧
  (macro_defined (tu_macros linux_x86_64) "__MACH__"
     && macro_defined (tu_macros linux_x86_64) "__APPLE__" = false →
   ∀ name, name ≠ "_GSSAPI_EXT_H_" → name ≠ "GSS_C_NO_BUFFER_SET" →
           tu_macros st' !! name = tu_macros linux_x86_64 !! name).
Proof.
  apply (gssapi_ext_h_declares_nothing_else sdk_TargetConditionals
           linux_x86_64).
  vm_compute; reflexivity.
Defined.

(** X6: on every target the packing condition does not name (it evaluates
    to zero: not a Mac target, or none of the four architectures, as on
    arm64), the header pushes nothing and the structure is defined under
    whatever packing surrounds the inclusion. *)
Theorem gss_buffer_set_desc_unpacked_elsewhere TC st st' :
  macro_defined (tu_macros st) "_GSSAPI_EXT_H_" = false →
  gssapi_ext_h TC st = Ok st' →
  ¬ packing_applies (prelude_macros TC (tu_macros st)) →
  ∃ d, tu_structs st' !! "gss_buffer_set_desc_struct" = Some d ∧
       sd_pack d = tu_pack st.
Proof.
  intros Hguard Hrun Hnot.
  apply gssapi_ext_h_spec in Hrun as (z & imp & Hz & _ & _ & ->); [|done].
  eexists. simpl. rewrite lookup_insert_eq. split; [done|]. simpl.
  unfold pack_at_struct. case_bool_decide as Hnz; [|done].
  destruct Hnot. by eapply pack_condition_applies.
Qed.

Lemma gss_buffer_set_desc_unpacked_elsewhere_linux :
  let st := with_pack (Some 4%N) [] linux_x86_64 in
  let st' := state_after (gssapi_ext_h sdk_TargetConditionals) st in
  ∃ d, tu_structs st' !! "gss_buffer_set_desc_struct" = Some d ∧
       sd_pack d = Some 4%N.
Proof.
  apply (gss_buffer_set_desc_unpacked_elsewhere sdk_TargetConditionals
           (with_pack (Some 4%N) [] linux_x86_64)).
  - vm_compute; reflexivity.
  - vm_compute; reflexivity.
  - intros [(v & Hv & _) _]. vm_compute in Hv. discriminate.
Defined.

(** X8: unless both [__MACH__] and [__APPLE__] are defined, the header never
    reads TargetConditionals.h: its translation is the same whatever that
    system header contains. *)
Theorem gssapi_ext_h_ignores_sdk_off_apple TC TC' st :
  macro_defined (tu_macros st) "__MACH__"
    && macro_defined (tu_macros st) "__APPLE__" = false →
  gssapi_ext_h TC st = gssapi_ext_h TC' st.
Proof.
  intros Happle. unfold gssapi_ext_h, pp_ifndef.
  destruct (macro_defined (tu_macros st) "_GSSAPI_EXT_H_"); [done|].
  unfold seq_directive, pp_define.
  assert (∀ T, apple_prelude T
                 (with_macros (insert "_GSSAPI_EXT_H_" MEmpty) st)
               = Ok (with_macros (insert "_GSSAPI_EXT_H_" MEmpty) st)) as Hpre.
  { intros T. unfold apple_prelude, pp_if, pp_and, pp_defined.
    cbn [tu_macros with_macros].
    rewrite !macro_defined_insert_ne by done.
    destruct (macro_defined (tu_macros st) "__MACH__"),
      (macro_defined (tu_macros st) "__APPLE__"); done. }
  by rewrite !Hpre.
Qed.

Lemma gssapi_ext_h_ignores_sdk_off_apple_linux :
  gssapi_ext_h sdk_TargetConditionals linux_x86_64
  = gssapi_ext_h (fun _ => ∅) linux_x86_64.
Proof.
  apply (gssapi_ext_h_ignores_sdk_off_apple sdk_TargetConditionals
           (fun _ => ∅) linux_x86_64).
  vm_compute; reflexivity.
Defined.

Lemma align_up_multiple (k a : N) :
  (0 < a)%N → align_up (k * a) a = (k * a)%N.
Proof.
  intros Ha. unfold align_up.
  replace (k * a + a - 1)%N with (k * a + (a - 1))%N by lia.
  rewrite N.div_add_l by lia. rewrite N.div_small by lia. f_equal. lia.
Qed.

(** X7: the packing pragma never moves the members.  On a target where
    [size_t] and [gss_buffer_desc *] have the same even size and natural
    alignment [w] (4 on ppc and i386, 8 on ppc64 and x86_64), a header
    included under default packing lays the structure out with [count] at
    offset 0, [elements] at offset [w] and size [2 * w] whether or not the
    packing condition holds; the pragma only lowers the alignment the
    structure asks for from [w] to 2. *)
Theorem pack_2_keeps_member_offsets (sizeof alignof : ctype → N) (w : N)
    TC st st' :
  macro_defined (tu_macros st) "_GSSAPI_EXT_H_" = false →
  gssapi_ext_h TC st = Ok st' →
  tu_pack st = None →
  (0 < w)%N → (w mod 2 = 0)%N →
  sizeof (TNamed "size_t") = w → alignof (TNamed "size_t") = w →
  sizeof (TPtr (TNamed "gss_buffer_desc")) = w →
  alignof (TPtr (TNamed "gss_buffer_desc")) = w →
  ∃ d, tu_structs st' !! "gss_buffer_set_desc_struct" = Some d ∧
       struct_offsets sizeof alignof d = [("count", 0%N); ("elements", w)] ∧
       struct_size sizeof alignof d = (2 * w)%N ∧
       (packing_applies (prelude_macros TC (tu_macros st)) →
        struct_align alignof d = 2%N) ∧
       (¬ packing_applies (prelude_macros TC (tu_macros st)) →
        struct_align alignof d = w).
Proof.
  intros Hguard Hrun Hpack Hw Heven Hs1 Ha1 Hs2 Ha2.
  apply gssapi_ext_h_spec in Hrun as (z & imp & Hz & _ & _ & ->); [|done].
  eexists. simpl. rewrite lookup_insert_eq. split; [done|].
  assert (w = (w / 2 * 2)%N) as Hw2.
  { rewrite (N.div_mod w 2) at 1 by lia. lia. }
  assert (2 ≤ w)%N as Hge by lia.
  assert (align_up w 2 = w) as Hup2.
  { rewrite Hw2 at 1. rewrite align_up_multiple by lia. lia. }
  assert (align_up w w = w) as Hupw.
  { rewrite <- (N.mul_1_l w) at 1. rewrite align_up_multiple by lia. lia. }
  assert (align_up (w + w) 2 = (2 * w)%N) as Hsz2.
  { replace (w + w)%N with (w * 2)%N by lia.
    rewrite align_up_multiple by lia. lia. }
  assert (align_up (w + w) w = (2 * w)%N) as Hszw.
  { replace (w + w)%N with (2 * w)%N by lia.
    by rewrite align_up_multiple by lia. }
  rewrite Hpack. unfold pack_at_struct.
  unfold struct_offsets, struct_size, struct_align, buffer_set_struct.
  case_bool_decide as Hnz; cbn [sd_pack sd_fields gss_buffer_set_desc_fields
    member_offsets member_align map foldr fst snd];
    rewrite ?Hs1, ?Ha1, ?Hs2, ?Ha2.
  - replace (N.min 2 w) with 2%N by lia.
    rewrite align_up_0, N.add_0_l, Hup2.
    replace (N.max 2 (N.max 2 1)) with 2%N by lia.
    rewrite Hsz2. split_and!; try done.
    intros Hnot. destruct Hnot. by eapply pack_condition_applies.
  - rewrite align_up_0, N.add_0_l, Hupw.
    replace (N.max w (N.max w 1)) with w by lia.
    rewrite Hszw. split_and!; try done.
    intros Happ. apply packing_applies_condition in Happ.
    rewrite Happ in Hz. congruence.
Qed.

Lemma pack_2_keeps_member_offsets_macos :
  let st' := state_after (gssapi_ext_h sdk_TargetConditionals) macos_x86_64 in
  ∃ d, tu_structs st' !! "gss_buffer_set_desc_struct" = Some d ∧
       struct_offsets lp64_sizeof lp64_alignof d
         = [("count", 0%N); ("elements", 8%N)] ∧
       struct_size lp64_sizeof lp64_alignof d = (2 * 8)%N ∧
       (packing_applies
          (prelude_macros sdk_TargetConditionals (tu_macros macos_x86_64)) →
        struct_align lp64_alignof d = 2%N) ∧
       (¬ packing_applies
            (prelude_macros sdk_TargetConditionals (tu_macros macos_x86_64)) →
        struct_align lp64_alignof d = 8%N).
Proof.
  apply (pack_2_keeps_member_offsets lp64_sizeof lp64_alignof 8%N
           sdk_TargetConditionals macos_x86_64);
    try (vm_compute; reflexivity).
Defined.

(** ** The provider model: calling convention, heap layout, callers *)

Section LifecycleProperties.

Import Provider.

Context {gss_buffer_desc gss_ctx_id_t gss_OID : Type}.
Variable GSS_ERROR : OM_uint32 → bool.
Variable provider_inquire :
  gss_ctx_id_t → gss_OID → OM_uint32 * OM_uint32 * list gss_buffer_desc.
Variable provider_release : gss_buffer_set_t → OM_uint32 * OM_uint32.

Implicit Types (w : world (gss_buffer_desc := gss_buffer_desc)).












(** C2: the header declares two operations and no other, each with return
    type [OM_uint32] and first parameter [OM_uint32 *minor_status], a
    pointer the callee can write through; and a call of either operation
    returns the provider's major status as its result and leaves the
    provider's minor status in the caller's status word at [minor_status],
    touching no other status word. *)
Theorem operations_return_major_and_store_minor TC st st' :
  macro_defined (tu_macros st) "_GSSAPI_EXT_H_" = false →
  gssapi_ext_h TC st = Ok st' →
  (∀ name, name ≠ "gss_release_buffer_set" →
           name ≠ "gss_inquire_sec_context_by_oid" →
           tu_protos st' !! name = tu_protos st !! name) ∧
  (∀ name, name = "gss_release_buffer_set" ∨
           name = "gss_inquire_sec_context_by_oid" →
     ∃ d rest,
       tu_protos st' !! name = Some d ∧
       fd_ret d = TNamed "OM_uint32" ∧
       fd_params d = (TPtr (TNamed "OM_uint32"), "minor_status") :: rest ∧
       Forall (fun q => is_output_param q.1 = true) (take 1 (fd_params d))) ∧
  (∀ minor_status_ptr buffer_set words w major words' w',
     call_gss_release_buffer_set GSS_ERROR provider_release
       minor_status_ptr buffer_set words w = (major, words', w') →
     ∃ minor,
       provider_release buffer_set = (major, minor) ∧
       words' !! minor_status_ptr = Some minor ∧
       (∀ q, q ≠ minor_status_ptr → words' !! q = words !! q)) ∧
  (∀ minor_status_ptr ctx oid data_set words w major words' p w',
     call_gss_inquire_sec_context_by_oid GSS_ERROR provider_inquire
       minor_status_ptr ctx oid data_set words w = (major, words', p, w') →
     ∃ minor vals,
       provider_inquire ctx oid = (major, minor, vals) ∧
       words' !! minor_status_ptr = Some minor ∧
       (∀ q, q ≠ minor_status_ptr → words' !! q = words !! q)).
Proof.
  intros Hguard Hrun.
  destruct (declared_prototypes_signature TC st st' Hguard Hrun)
    as [Honly Hsig].
  split_and!; [done | done | |].
  - intros msp p words w major words' w'.
    unfold call_gss_release_buffer_set, gss_release_buffer_set.
    destruct (provider_release p) as [major0 minor0].
    destruct (GSS_ERROR major0); intros [= <- <- <-]; simpl;
      exists minor0; (split_and!; [done | by rewrite lookup_insert_eq |]);
      intros q Hq; by rewrite lookup_insert_ne.
  - intros msp ctx oid old words w major words' p w'.
    unfold call_gss_inquire_sec_context_by_oid,
      gss_inquire_sec_context_by_oid.
    destruct (provider_inquire ctx oid) as [[major0 minor0] vals0].
    destruct (GSS_ERROR major0).
    + intros [= <- <- <- <-]; simpl. exists minor0, vals0.
      split_and!; [done | by rewrite lookup_insert_eq |].
      intros q Hq; by rewrite lookup_insert_ne.
    + destruct (alloc_buffer_set vals0 w) as [p0 w0].
      intros [= <- <- <- <-]; simpl. exists minor0, vals0.
      split_and!; [done | by rewrite lookup_insert_eq |].
      intros q Hq; by rewrite lookup_insert_ne.
Qed.

End LifecycleProperties.

(** *** The sample provider again *)





Lemma operations_return_major_and_store_minor_sample :
  let st' := state_after (gssapi_ext_h sdk_TargetConditionals) macos_x86_64 in
  (∀ name, name ≠ "gss_release_buffer_set" →
           name ≠ "gss_inquire_sec_context_by_oid" →
           tu_protos st' !! name = tu_protos macos_x86_64 !! name) ∧
  (∀ name, name = "gss_release_buffer_set" ∨
           name = "gss_inquire_sec_context_by_oid" →
     ∃ d rest,
       tu_protos st' !! name = Some d ∧
       fd_ret d = TNamed "OM_uint32" ∧
       fd_params d = (TPtr (TNamed "OM_uint32"), "minor_status") :: rest ∧
       Forall (fun q => is_output_param q.1 = true) (take 1 (fd_params d))) ∧
  (∀ minor_status_ptr buffer_set words
     (w : Provider.world (gss_buffer_desc := string)) major words' w',
     Provider.call_gss_release_buffer_set sample_GSS_ERROR sample_release
       minor_status_ptr buffer_set words w = (major, words', w') →
     ∃ minor,
       sample_release buffer_set = (major, minor) ∧
       words' !! minor_status_ptr = Some minor ∧
       (∀ q, q ≠ minor_status_ptr → words' !! q = words !! q)) ∧
  (∀ minor_status_ptr ctx oid data_set words
     (w : Provider.world (gss_buffer_desc := string)) major words' p w',
     Provider.call_gss_inquire_sec_context_by_oid sample_GSS_ERROR
       sample_inquire minor_status_ptr ctx oid data_set words w
       = (major, words', p, w') →
     ∃ minor vals,
       sample_inquire ctx oid = (major, minor, vals) ∧
       words' !! minor_status_ptr = Some minor ∧
       (∀ q, q ≠ minor_status_ptr → words' !! q = words !! q)).
Proof.
  apply (operations_return_major_and_store_minor sample_GSS_ERROR
           sample_inquire sample_release sdk_TargetConditionals macos_x86_64);
    vm_compute; reflexivity.
Defined.

(** A call of the sample provider's query on a property it does not know:
    the failure status comes back as the result and the minor status 22 is
    in the caller's status word at address 64. *)
Example failed_inquiry_stores_minor_status :
  let r := Provider.call_gss_inquire_sec_context_by_oid sample_GSS_ERROR
             sample_inquire 64%Z tt 1%nat GSS_C_NO_BUFFER_SET ∅
             (Provider.initial_world (gss_buffer_desc := string)) in
  r.1.1.1 = 851968%N ∧ r.1.1.2 !! 64%Z = Some 22%N ∧
  r.1.2 = GSS_C_NO_BUFFER_SET.
Proof. vm_compute. done. Qed.
